(** * fontkit: the layout engine (src/layout/LayoutEngine.js)

    A shallow embedding of the [LayoutEngine] class: the cluster builder
    [glyphsForString], the phase pipeline [layout] / [substitute] /
    [position], the default-ignorable filter and the feature enumeration,
    followed by the properties of the specification that concern them.

    Conventions.
    - A JavaScript string is its sequence of UTF-16 code units, [list Z].
    - JavaScript numbers that the code only compares, adds or stores are [Z];
      the 32-bit operators [>>], [<<] and [&] go through [toInt32].
    - Arrays are lists, read with [!!] and updated with [<[ i := x ]>];
      the objects an array holds are taken to be pairwise distinct, as
      [glyphsForString] and [position] create them.
    - Objects with fields are records; a field that may hold [null] or
      [undefined] is an [option].
    - The collaborators the file imports (shaping backends, the Unicode
      mark positioner, the kern processor, script detection) are parameters,
      gathered in [Env]; every call the engine makes to one of them is
      recorded in a trace of [Call]s. *)

From Stdlib Require Import ZArith Lia List.
From stdpp Require Import base list gmap strings.

Local Open Scope Z_scope.

(** Feature tags, script and language names are short ASCII strings. *)
Abbreviation Tag := String.string.

(** ** JavaScript integer operators *)

(** ToInt32 of an integral number. *)
Definition toInt32 (n : Z) : Z := (n + 2 ^ 31) mod 2 ^ 32 - 2 ^ 31.

(** [a >> k], [a << k] and [a & b] for [0 <= k < 32]. *)
Definition js_sar (a k : Z) : Z := Z.shiftr (toInt32 a) k.
Definition js_shl (a k : Z) : Z := toInt32 (Z.shiftl (toInt32 a) k).
Definition js_and (a b : Z) : Z := toInt32 (Z.land (toInt32 a) (toInt32 b)).

(** [string.charCodeAt(idx)]; the engine only reads inside the string, so the
    value out of range (NaN in JavaScript) is never observed. *)
Definition charCodeAt (string : list Z) (idx : Z) : Z :=
  default 0 (string !! Z.to_nat idx).

(** [array.indexOf(x)] on an array of strings: the first position, or -1. *)
Fixpoint indexOf (l : list Tag) (x : Tag) : Z :=
  match l with
  | [] => -1
  | y :: l' =>
      if String.eqb y x then 0
      else let i := indexOf l' x in if i =? -1 then -1 else i + 1
  end.

(** ** Data model *)

(** The glyph-input unit, [new GlyphInfo(font, id, codePoints, stringIndex)]. *)
Module GlyphInfo.
Record t : Type := mk { id : Z; codePoints : list Z; stringIndex : Z }.

(** [glyph.id = v] *)
Definition set_id (v : Z) (g : t) : t :=
  {| id := v; codePoints := codePoints g; stringIndex := stringIndex g |}.
End GlyphInfo.

Module GlyphPosition.
Record t : Type :=
  mk { xAdvance : Z; yAdvance : Z; xOffset : Z; yOffset : Z }.

(** Modelled from the spec: the constructor of GlyphPosition (its file is
    not part of the sources at hand); the initial position carries the
    advance width only, with zero y advance and zero offsets. *)
Definition new (xAdvance : Z) : t :=
  {| xAdvance := xAdvance; yAdvance := 0; xOffset := 0; yOffset := 0 |}.

(** [position.xAdvance = 0; position.yAdvance = 0] *)
Definition zero_advance (p : t) : t :=
  {| xAdvance := 0; yAdvance := 0; xOffset := xOffset p; yOffset := yOffset p |}.
End GlyphPosition.

(** The renderable glyph object the font hands out. *)
Module Glyph.
Record t : Type := mk { id : Z; advanceWidth : Z }.
End Glyph.

(** The font, as far as the engine consults it. *)
Module Font.
Record t : Type := mk {
  morx : bool;                          (* truthiness of [font.morx] *)
  GSUB : bool;
  GPOS : bool;
  kern : bool;
  cmap_lookup : Z -> option Z -> Z;     (* [font._cmapProcessor.lookup(cp, vs)] *)
  glyphForCodePoint : Z -> Glyph.t;
  getGlyph : Z -> Glyph.t;
}.
End Font.

(** Modelled from the spec: the [advanceWidth] getter of GlyphInfo (its file
    is not part of the sources at hand), the intrinsic advance metric of the
    glyph the unit currently names. *)
Definition GlyphInfo_advanceWidth (font : Font.t) (glyph : GlyphInfo.t) : Z :=
  Glyph.advanceWidth (Font.getGlyph font (GlyphInfo.id glyph)).

(** The [features] argument of [layout] as JavaScript passes it: a script
    name when the caller left the features out, an array of tags, an object
    of toggles, or nothing. *)
Inductive FeaturesArg : Type :=
| FeatString (s : Tag)
| FeatArray (tags : list Tag)
| FeatObject (toggles : gmap Tag bool)
| FeatUndefined.

Module GlyphRun.
(** The run; [G] is [GlyphInfo.t] while the phases work and [Glyph.t] in
    the returned run. *)
Record t (G : Type) : Type := mk {
  glyphs : list G;
  features : gmap Tag bool;
  script : Tag;
  language : option Tag;
  direction : option Tag;
  positions : option (list GlyphPosition.t);
  stringIndices : option (list Z);
}.
Arguments mk {G}.
Arguments glyphs {G}.
Arguments features {G}.
Arguments script {G}.
Arguments language {G}.
Arguments direction {G}.
Arguments positions {G}.
Arguments stringIndices {G}.

Definition set_positions {G} (v : option (list GlyphPosition.t)) (r : t G) : t G :=
  mk (glyphs r) (features r) (script r) (language r) (direction r) v (stringIndices r).

Definition set_features {G} (v : gmap Tag bool) (r : t G) : t G :=
  mk (glyphs r) v (script r) (language r) (direction r) (positions r) (stringIndices r).

Definition set_arrays {G} (gs : list G) (ps : option (list GlyphPosition.t)) (r : t G) : t G :=
  mk gs (features r) (script r) (language r) (direction r) ps (stringIndices r).
End GlyphRun.

(** ** The default-ignorable classification (lines 173-199) *)

Definition isDefaultIgnorable (ch : Z) : bool :=
  let plane := js_sar ch 16 in
  if plane =? 0 then
    (* BMP *)
    let page := js_sar ch 8 in
    if page =? 0x00 then ch =? 0x00AD
    else if page =? 0x03 then ch =? 0x034F
    else if page =? 0x06 then ch =? 0x061C
    else if page =? 0x17 then (0x17B4 <=? ch) && (ch <=? 0x17B5)
    else if page =? 0x18 then (0x180B <=? ch) && (ch <=? 0x180E)
    else if page =? 0x20 then
      (0x200B <=? ch) && (ch <=? 0x200F) || (0x202A <=? ch) && (ch <=? 0x202E)
      || (0x2060 <=? ch) && (ch <=? 0x206F)
    else if page =? 0xFE then (0xFE00 <=? ch) && (ch <=? 0xFE0F) || (ch =? 0xFEFF)
    else if page =? 0xFF then (0xFFF0 <=? ch) && (ch <=? 0xFFF8)
    else false
  else
    (* Other planes *)
    if plane =? 0x01 then
      (0x1BCA0 <=? ch) && (ch <=? 0x1BCA3) || (0x1D173 <=? ch) && (ch <=? 0x1D17A)
    else if plane =? 0x0E then (0xE0000 <=? ch) && (ch <=? 0xE0FFF)
    else false.

(** The classification as the specification tabulates it: the listed single
    codepoints and closed ranges, and nothing else. *)
Definition inRange (lo hi ch : Z) : bool := (lo <=? ch) && (ch <=? hi).

Definition defaultIgnorableTable (ch : Z) : bool :=
  (ch =? 0x00AD) || (ch =? 0x034F) || (ch =? 0x061C) || inRange 0x17B4 0x17B5 ch
  || inRange 0x180B 0x180E ch || inRange 0x200B 0x200F ch || inRange 0x202A 0x202E ch
  || inRange 0x2060 0x206F ch || inRange 0xFE00 0xFE0F ch || (ch =? 0xFEFF)
  || inRange 0xFFF0 0xFFF8 ch || inRange 0x1BCA0 0x1BCA3 ch || inRange 0x1D173 0x1D17A ch
  || inRange 0xE0000 0xE0FFF ch.

(** The bounds of the tabulated ranges, a single codepoint being the range
    from itself to itself. *)
Definition defaultIgnorableRanges : list (Z * Z) :=
  [ (0x00AD, 0x00AD); (0x034F, 0x034F); (0x061C, 0x061C); (0x17B4, 0x17B5);
    (0x180B, 0x180E); (0x200B, 0x200F); (0x202A, 0x202E); (0x2060, 0x206F);
    (0xFE00, 0xFE0F); (0xFEFF, 0xFEFF); (0xFFF0, 0xFFF8); (0x1BCA0, 0x1BCA3);
    (0x1D173, 0x1D17A); (0xE0000, 0xE0FFF) ].

(** ** The cluster builder (lines 81-123) *)

(** Lines 95-102: decode the codepoint that starts at [idx]; the result is the
    codepoint and the index after it. *)
Definition decodeUTF16 (string : list Z) (idx : Z) : Z * Z :=
  let len := Z.of_nat (length string) in
  let code := charCodeAt string idx in
  let idx := idx + 1 in
  if (0xd800 <=? code) && (code <=? 0xdbff) && (idx <? len) then
    let next := charCodeAt string idx in
    if (0xdc00 <=? next) && (next <=? 0xdfff) then
      (js_shl (js_and code 0x3ff) 10 + js_and next 0x3ff + 0x10000, idx + 1)
    else (code, idx)
  else (code, idx).

(** Line 105: 1 if the codepoint is a variation selector, 0 otherwise. *)
Definition variationSelectorState (code : Z) : Z :=
  if (0xfe00 <=? code) && (code <=? 0xfe0f) || (0xe0100 <=? code) && (code <=? 0xe01ef)
  then 1 else 0.

(** The [while (idx <= len)] loop. Every iteration advances [idx], so
    [length string + 1] iterations always suffice; [None] reports that [fuel]
    ran out before the loop condition failed. *)
Fixpoint glyphsForString_loop (fuel : nat) (font : Font.t) (string : list Z)
    (idx last state : Z) (glyphs : list GlyphInfo.t) : option (list GlyphInfo.t) :=
  let len := Z.of_nat (length string) in
  if idx <=? len then
    match fuel with
    | O => None
    | S fuel =>
        let stringIndex := idx - 1 in
        let '(code, nextState, idx) :=
          if idx <? len then
            let '(code, idx) := decodeUTF16 string idx in
            (code, variationSelectorState code, idx)
          else (0, 0, idx + 1) in
        let glyphs :=
          if (state =? 0) && (nextState =? 1) then
            (* Variation selector following normal codepoint. *)
            glyphs ++ [GlyphInfo.mk (Font.cmap_lookup font last (Some code))
                                    [last; code] stringIndex]
          else if (state =? 0) && (nextState =? 0) then
            (* Normal codepoint following normal codepoint. *)
            glyphs ++ [GlyphInfo.mk (Font.cmap_lookup font last None)
                                    [last] stringIndex]
          else glyphs in
        glyphsForString_loop fuel font string idx code nextState glyphs
    end
  else Some glyphs.

Definition glyphsForString (font : Font.t) (string : list Z) : list GlyphInfo.t :=
  default [] (glyphsForString_loop (S (length string)) font string 0 (-1) (-1) []).

(** *** The same builder, read as decoder followed by clustering

    [decode] is the sequence of codepoints the loop reads, each with the
    offset where it starts and the offset after it; [units] is the clustering
    of section 4.2 of the specification over that sequence, [pending] being
    the base that waits for a possible selector. *)
Record CodePoint : Type :=
  mkCodePoint { cp_index : Z; cp_code : Z; cp_next : Z }.

Fixpoint decode_loop (fuel : nat) (string : list Z) (idx : Z) : list CodePoint :=
  if idx <? Z.of_nat (length string) then
    match fuel with
    | O => []
    | S fuel =>
        let '(code, next) := decodeUTF16 string idx in
        mkCodePoint idx code next :: decode_loop fuel string next
    end
  else [].

Definition decode (string : list Z) : list CodePoint :=
  decode_loop (length string) string 0.

Definition isVariationSelector (code : Z) : bool :=
  variationSelectorState code =? 1.

(** The variation selectors as the specification names them. *)
Definition inSelectorRanges (code : Z) : Prop :=
  0xFE00 <= code <= 0xFE0F \/ 0xE0100 <= code <= 0xE01EF.

(** The unit of a base alone and of a base with its selector; both record the
    offset the loop has in [stringIndex] when it pushes them, one before the
    offset that follows the base. *)
Definition unit1 (font : Font.t) (b : CodePoint) : GlyphInfo.t :=
  GlyphInfo.mk (Font.cmap_lookup font (cp_code b) None) [cp_code b] (cp_next b - 1).

Definition unit2 (font : Font.t) (b v : CodePoint) : GlyphInfo.t :=
  GlyphInfo.mk (Font.cmap_lookup font (cp_code b) (Some (cp_code v)))
               [cp_code b; cp_code v] (cp_next b - 1).

Definition flush (font : Font.t) (pending : option CodePoint) : list GlyphInfo.t :=
  match pending with Some b => [unit1 font b] | None => [] end.

Fixpoint units (font : Font.t) (pending : option CodePoint) (cps : list CodePoint)
    : list GlyphInfo.t :=
  match cps with
  | [] => flush font pending
  | c :: rest =>
      if isVariationSelector (cp_code c) then
        match pending with Some b => [unit2 font b c] | None => [] end
        ++ units font None rest
      else flush font pending ++ units font (Some c) rest
  end.

(** What [pending] stands for in the variables of the loop: the loop is in
    state 0 with [last] the pending base, read up to [idx], or in another
    state with no base pending. *)
Definition tracks (pending : option CodePoint) (idx last state : Z) : Prop :=
  match pending with
  | Some b => state = 0 /\ cp_code b = last /\ cp_next b = idx
  | None => state <> 0
  end.

(** ** The default-ignorable filter (lines 162-171) *)

Inductive Error : Type := TypeError.

(** How a call ends: with a value, or with an exception thrown. *)
Inductive Completion (A : Type) : Type :=
| Normal (a : A)
| Throw (e : Error).
Arguments Normal {A}.
Arguments Throw {A}.

(** The argument of [isDefaultIgnorable] is [glyphs[i].codePoints[0]]; on an
    empty [codePoints] that is [undefined], whose shifts are 0 and which is
    not equal to 0x00AD, so the answer is [false]. *)
Definition firstCodePointIgnorable (g : GlyphInfo.t) : bool :=
  match GlyphInfo.codePoints g !! 0%nat with
  | Some ch => isDefaultIgnorable ch
  | None => false
  end.

(** One iteration of the [for] loop, at index [i]. Assigning a property of
    [positions[i]] when there is no such element throws. *)
Definition hideDefaultIgnorables_step (space : Glyph.t) (i : nat)
    (arrays : list GlyphInfo.t * option (list GlyphPosition.t))
    : Completion (list GlyphInfo.t * option (list GlyphPosition.t)) :=
  let '(glyphs, positions) := arrays in
  match glyphs !! i with
  | None => Normal (glyphs, positions)
  | Some g =>
      if firstCodePointIgnorable g then
        let glyphs := <[ i := GlyphInfo.set_id (Glyph.id space) g ]> glyphs in
        match positions with
        | Some ps =>
            match ps !! i with
            | Some p => Normal (glyphs, Some (<[ i := GlyphPosition.zero_advance p ]> ps))
            | None => Throw TypeError
            end
        | None => Throw TypeError
        end
      else Normal (glyphs, positions)
  end.

(** The loop over [i = 0 .. glyphs.length - 1]. *)
Fixpoint hideDefaultIgnorables_loop (space : Glyph.t) (indices : list nat)
    (arrays : list GlyphInfo.t * option (list GlyphPosition.t))
    : Completion (list GlyphInfo.t * option (list GlyphPosition.t)) :=
  match indices with
  | [] => Normal arrays
  | i :: indices =>
      match hideDefaultIgnorables_step space i arrays with
      | Normal arrays => hideDefaultIgnorables_loop space indices arrays
      | Throw e => Throw e
      end
  end.

Definition hideDefaultIgnorables (font : Font.t) (glyphs : list GlyphInfo.t)
    (positions : option (list GlyphPosition.t))
    : Completion (list GlyphInfo.t * option (list GlyphPosition.t)) :=
  let space := Font.glyphForCodePoint font 0x20 in
  hideDefaultIgnorables_loop space (seq 0 (length glyphs)) (glyphs, positions).

(** ** Collaborators *)

Abbreviation Run := (GlyphRun.t GlyphInfo.t).

(** A shaping backend ([AATLayoutEngine] or [OTLayoutEngine]): an object with
    private state [B] and the operations the engine looks for. [setup],
    [substitute], [position] and [cleanup] may be absent; [position] returns
    the features it applied (an object from tag to flag) or nothing. An
    operation receives the run and may change any part of it. *)
Module Backend.
Record t : Type := mk {
  B : Type;
  state : B;
  setup : option (B -> Run -> B * Run);
  substitute : option (B -> Run -> B * Run);
  position : option (B -> Run -> B * Run * option (gmap Tag bool));
  cleanup : option (B -> B);
  fallbackPosition : B -> bool;
  getAvailableFeatures : B -> option Tag -> option Tag -> list Tag;
}.

Definition with_state (e : t) (b : B e) : t :=
  {| B := B e; state := b; setup := setup e; substitute := substitute e;
     position := position e; cleanup := cleanup e;
     fallbackPosition := fallbackPosition e;
     getAvailableFeatures := getAvailableFeatures e |}.
End Backend.

(** [new UnicodeLayoutEngine(font)] and [new KernProcessor(font)]: objects
    that hold the font they were built for. *)
Record UnicodeLayoutEngine : Type := { ule_font : Font.t }.
Record KernProcessor : Type := { kp_font : Font.t }.

(** The fields of the engine object, [this]. *)
Record LayoutEngine : Type := mkLayoutEngine {
  font : Font.t;
  engine : option Backend.t;
  unicodeLayoutEngine : option UnicodeLayoutEngine;
  kernProcessor : option KernProcessor;
}.

Definition set_engine (e : option Backend.t) (this : LayoutEngine) : LayoutEngine :=
  mkLayoutEngine (font this) e (unicodeLayoutEngine this) (kernProcessor this).

Definition set_unicodeLayoutEngine (u : option UnicodeLayoutEngine) (this : LayoutEngine)
    : LayoutEngine :=
  mkLayoutEngine (font this) (engine this) u (kernProcessor this).

Definition set_kernProcessor (k : option KernProcessor) (this : LayoutEngine)
    : LayoutEngine :=
  mkLayoutEngine (font this) (engine this) (unicodeLayoutEngine this) k.

(** What the file imports and the sources at hand do not contain. The two
    positioners receive the run's arrays as the run holds them and hand them
    back as they leave them. *)
Record Env : Type := mkEnv {
  Script_forString : list Z -> Tag;
  AATLayoutEngine : Font.t -> Backend.t;
  OTLayoutEngine : Font.t -> Backend.t;
  positionGlyphs : UnicodeLayoutEngine -> list GlyphInfo.t -> option (list GlyphPosition.t)
                   -> list GlyphInfo.t * option (list GlyphPosition.t);
  process : KernProcessor -> list GlyphInfo.t -> option (list GlyphPosition.t)
            -> list GlyphInfo.t * option (list GlyphPosition.t);
  (* the feature toggles the GlyphRun constructor derives from the argument *)
  GlyphRun_features : FeaturesArg -> gmap Tag bool;
  (* the [stringIndices] the GlyphRun constructor leaves in a new run, if any *)
  GlyphRun_stringIndices : list GlyphInfo.t -> option (list Z);
}.

(** Modelled from the spec: the constructor of GlyphRun (its file is not part
    of the sources at hand). The run holds the live unit sequence, the
    feature toggles and the requested script, language and direction. The
    position sequence is assigned by [layout] on each of its paths (lines 46
    and 134) before it is read. The source-offset sequence is assigned by the
    final mapping only (line 67); what a new run holds there is not stated,
    and is taken from [env]. *)
Definition GlyphRun_new (env : Env) (glyphs : list GlyphInfo.t) (features : FeaturesArg)
    (script : Tag) (language direction : option Tag) : Run :=
  {| GlyphRun.glyphs := glyphs;
     GlyphRun.features := GlyphRun_features env features;
     GlyphRun.script := script;
     GlyphRun.language := language;
     GlyphRun.direction := direction;
     GlyphRun.positions := None;
     GlyphRun.stringIndices := GlyphRun_stringIndices env glyphs |}.

(** ** Effects: the engine object, the trace of collaborator calls, exceptions *)

Inductive Call : Type :=
| CallSetup                         (* engine.setup(glyphRun) *)
| CallSubstitute                    (* engine.substitute(glyphRun) *)
| CallPosition                      (* engine.position(glyphRun) *)
| CallCleanup                       (* engine.cleanup() *)
| CallPositionGlyphs (glyphs : list GlyphInfo.t) (positions : option (list GlyphPosition.t))
                                    (* unicodeLayoutEngine.positionGlyphs(..) *)
| CallProcess (glyphs : list GlyphInfo.t) (positions : option (list GlyphPosition.t)).
                                    (* kernProcessor.process(..) *)

(** A method of the engine: from the engine object before to the completion,
    the engine object after and the calls made on the way. *)
Definition M (A : Type) : Type :=
  LayoutEngine -> Completion A * LayoutEngine * list Call.

#[global] Instance M_ret : MRet M := fun A a this => (Normal a, this, []).

#[global] Instance M_bind : MBind M := fun A A' f m this =>
  match m this with
  | (Normal a, this, calls) =>
      let '(c, this, calls') := f a this in (c, this, calls ++ calls')
  | (Throw e, this, calls) => (Throw e, this, calls)
  end.

Definition getThis : M LayoutEngine := fun this => (Normal this, this, []).
Definition putThis (this : LayoutEngine) : M unit := fun _ => (Normal tt, this, []).
Definition call (c : Call) : M unit := fun this => (Normal tt, this, [c]).
Definition complete {A} (c : Completion A) : M A := fun this => (c, this, []).

(** ** The engine (lines 11-160, 201-213) *)

(** The constructor. *)
Definition LayoutEngine_new (env : Env) (font : Font.t) : LayoutEngine :=
  {| font := font;
     unicodeLayoutEngine := None;
     kernProcessor := None;
     engine :=
       if Font.morx font then Some (AATLayoutEngine env font)
       else if Font.GSUB font || Font.GPOS font then Some (OTLayoutEngine env font)
       else None |}.

(** Lines 51-53: [if (this.engine && this.engine.setup) this.engine.setup(glyphRun)]. *)
Definition setup (glyphRun : Run) : M Run :=
  this ← getThis;
  match engine this with
  | Some e =>
      match Backend.setup e with
      | Some f =>
          let '(b, glyphRun) := f (Backend.state e) glyphRun in
          _ ← call CallSetup;
          _ ← putThis (set_engine (Some (Backend.with_state e b)) this);
          mret glyphRun
      | None => mret glyphRun
      end
  | None => mret glyphRun
  end.

(** Lines 125-130. *)
Definition substitute (glyphRun : Run) : M Run :=
  this ← getThis;
  match engine this with
  | Some e =>
      match Backend.substitute e with
      | Some f =>
          let '(b, glyphRun) := f (Backend.state e) glyphRun in
          _ ← call CallSubstitute;
          _ ← putThis (set_engine (Some (Backend.with_state e b)) this);
          mret glyphRun
      | None => mret glyphRun
      end
  | None => mret glyphRun
  end.

(** Lines 133-140: the initial positions, then the backend's [position];
    the result pairs the run with [positioned]. *)
Definition position_backend (glyphRun : Run) : M (Run * option (gmap Tag bool)) :=
  this ← getThis;
  let glyphRun :=
    GlyphRun.set_positions
      (Some (map (fun glyph => GlyphPosition.new (GlyphInfo_advanceWidth (font this) glyph))
                 (GlyphRun.glyphs glyphRun)))
      glyphRun in
  match engine this with
  | Some e =>
      match Backend.position e with
      | Some f =>
          let '(b, glyphRun, positioned) := f (Backend.state e) glyphRun in
          _ ← call CallPosition;
          _ ← putThis (set_engine (Some (Backend.with_state e b)) this);
          mret (glyphRun, positioned)
      | None => mret (glyphRun, None)
      end
  | None => mret (glyphRun, None)
  end.

(** Lines 142-149: [!positioned && (!this.engine || this.engine.fallbackPosition)]. *)
Definition position_marks (env : Env) (positioned : option (gmap Tag bool))
    (glyphRun : Run) : M Run :=
  this ← getThis;
  if negb (bool_decide (is_Some positioned))
     && match engine this with
        | None => true
        | Some e => Backend.fallbackPosition e (Backend.state e)
        end
  then
    let u := match unicodeLayoutEngine this with
             | Some u => u
             | None => {| ule_font := font this |}
             end in
    _ ← putThis (set_unicodeLayoutEngine (Some u) this);
    _ ← call (CallPositionGlyphs (GlyphRun.glyphs glyphRun) (GlyphRun.positions glyphRun));
    let '(glyphs, positions) :=
      positionGlyphs env u (GlyphRun.glyphs glyphRun) (GlyphRun.positions glyphRun) in
    mret (GlyphRun.set_arrays glyphs positions glyphRun)
  else mret glyphRun.

(** [positioned.kern] is truthy. *)
Definition positioned_kern (positioned : option (gmap Tag bool)) : bool :=
  match positioned with
  | Some applied => bool_decide (applied !! "kern"%string = Some true)
  | None => false
  end.

(** Lines 151-159:
    [(!positioned || !positioned.kern) && glyphRun.features.kern !== false && this.font.kern]. *)
Definition position_kern (env : Env) (positioned : option (gmap Tag bool))
    (glyphRun : Run) : M Run :=
  this ← getThis;
  if negb (positioned_kern positioned)
     && negb (bool_decide (GlyphRun.features glyphRun !! "kern"%string = Some false))
     && Font.kern (font this)
  then
    let k := match kernProcessor this with
             | Some k => k
             | None => {| kp_font := font this |}
             end in
    _ ← putThis (set_kernProcessor (Some k) this);
    _ ← call (CallProcess (GlyphRun.glyphs glyphRun) (GlyphRun.positions glyphRun));
    let '(glyphs, positions) :=
      process env k (GlyphRun.glyphs glyphRun) (GlyphRun.positions glyphRun) in
    mret (GlyphRun.set_features
            (<[ "kern"%string := true ]> (GlyphRun.features glyphRun))
            (GlyphRun.set_arrays glyphs positions glyphRun))
  else mret glyphRun.

(** Lines 132-160. *)
Definition position (env : Env) (glyphRun : Run) : M Run :=
  '(glyphRun, positioned) ← position_backend glyphRun;
  glyphRun ← position_marks env positioned glyphRun;
  position_kern env positioned glyphRun.

(** Lines 62-64. *)
Definition cleanup : M unit :=
  this ← getThis;
  match engine this with
  | Some e =>
      match Backend.cleanup e with
      | Some f =>
          _ ← call CallCleanup;
          putThis (set_engine (Some (Backend.with_state e (f (Backend.state e)))) this)
      | None => mret tt
      end
  | None => mret tt
  end.

(** Lines 28-42: the optional [features] parameter, the script detection, the
    cluster builder and the new run. *)
Definition layout_run (env : Env) (font : Font.t) (string : list Z) (features : FeaturesArg)
    (script language direction : option Tag) : Run :=
  let '(features, script, language, direction) :=
    match features with
    | FeatString s => (FeatArray [], Some s, script, language)
    | _ => (features, script, language, direction)
    end in
  let script :=
    match script with
    | None => Script_forString env string
    | Some s => s
    end in
  let glyphs := glyphsForString font string in
  GlyphRun_new env glyphs features script language direction.

(** Lines 66-69: the source offsets, then the glyph objects. *)
Definition layout_result (font : Font.t) (glyphRun : Run) : GlyphRun.t Glyph.t :=
  {| GlyphRun.glyphs :=
       map (fun glyphInfo => Font.getGlyph font (GlyphInfo.id glyphInfo))
           (GlyphRun.glyphs glyphRun);
     GlyphRun.features := GlyphRun.features glyphRun;
     GlyphRun.script := GlyphRun.script glyphRun;
     GlyphRun.language := GlyphRun.language glyphRun;
     GlyphRun.direction := GlyphRun.direction glyphRun;
     GlyphRun.positions := GlyphRun.positions glyphRun;
     GlyphRun.stringIndices :=
       Some (map GlyphInfo.stringIndex (GlyphRun.glyphs glyphRun)) |}.

(** The run returned early (lines 45-48): its glyph array is the empty one the
    builder returned, its positions the empty array assigned there. *)
Definition layout_empty (glyphRun : Run) : GlyphRun.t Glyph.t :=
  {| GlyphRun.glyphs := [];
     GlyphRun.features := GlyphRun.features glyphRun;
     GlyphRun.script := GlyphRun.script glyphRun;
     GlyphRun.language := GlyphRun.language glyphRun;
     GlyphRun.direction := GlyphRun.direction glyphRun;
     GlyphRun.positions := Some [];
     GlyphRun.stringIndices := GlyphRun.stringIndices glyphRun |}.

(** Lines 27-70. *)
Definition layout (env : Env) (string : list Z) (features : FeaturesArg)
    (script language direction : option Tag) : M (GlyphRun.t Glyph.t) :=
  this ← getThis;
  let glyphRun := layout_run env (font this) string features script language direction in
  match GlyphRun.glyphs glyphRun with
  | [] =>
      (* Return early if there are no glyphs *)
      mret (layout_empty glyphRun)
  | _ :: _ =>
      (* Setup the advanced layout engine *)
      glyphRun ← setup glyphRun;
      (* Substitute and position the glyphs *)
      glyphRun ← substitute glyphRun;
      glyphRun ← position env glyphRun;
      '(glyphs, positions) ←
        complete (hideDefaultIgnorables (font this) (GlyphRun.glyphs glyphRun)
                                        (GlyphRun.positions glyphRun));
      let glyphRun := GlyphRun.set_arrays glyphs positions glyphRun in
      (* Let the layout engine clean up any state it might have *)
      _ ← cleanup;
      (* Map glyph infos back to normal Glyph objects *)
      mret (layout_result (font this) glyphRun)
  end.

(** The call up to the two fallback gates of [position]: the run as the
    backend's [setup], [substitute] and [position] left it, with what the
    latter reported. *)
Definition layout_positioned (env : Env) (string : list Z) (features : FeaturesArg)
    (script language direction : option Tag) : M (Run * option (gmap Tag bool)) :=
  this ← getThis;
  let glyphRun := layout_run env (font this) string features script language direction in
  glyphRun ← setup glyphRun;
  glyphRun ← substitute glyphRun;
  position_backend glyphRun.

(** The rest of the call from the two fallback gates on (lines 142-159 and 59-69):
    the gates, the hiding pass, the backend's [cleanup] and the final
    mapping. *)
Definition layout_finish (env : Env) (positioned : option (gmap Tag bool))
    (glyphRun : Run) : M (GlyphRun.t Glyph.t) :=
  this ← getThis;
  glyphRun ← position_marks env positioned glyphRun;
  glyphRun ← position_kern env positioned glyphRun;
  '(glyphs, positions) ←
    complete (hideDefaultIgnorables (font this) (GlyphRun.glyphs glyphRun)
                                    (GlyphRun.positions glyphRun));
  let glyphRun := GlyphRun.set_arrays glyphs positions glyphRun in
  _ ← cleanup;
  mret (layout_result (font this) glyphRun).

(** Lines 201-213. *)
Definition getAvailableFeatures (this : LayoutEngine) (script language : option Tag)
    : list Tag :=
  let features :=
    match engine this with
    | Some e => Backend.getAvailableFeatures e (Backend.state e) script language
    | None => []
    end in
  if Font.kern (font this) && (indexOf features "kern" =? -1)
  then features ++ ["kern"%string]
  else features.

(** How often a tag occurs in a list of tags. *)
Definition countTag (tag : Tag) (tags : list Tag) : nat :=
  length (filter (fun t => t = tag) tags).

(** ** Reading the trace *)

Definition isCallProcess (c : Call) : bool :=
  match c with CallProcess _ _ => true | _ => false end.

Definition isCallPositionGlyphs (c : Call) : bool :=
  match c with CallPositionGlyphs _ _ => true | _ => false end.

Definition isBackendCall (c : Call) : bool :=
  match c with
  | CallSetup | CallSubstitute | CallPosition | CallCleanup => true
  | _ => false
  end.

(** The Legacy Kern Processor, respectively the Fallback Mark Positioner, ran
    during the call that left this trace. *)
Definition kernProcessorRan (calls : list Call) : bool := existsb isCallProcess calls.
Definition markPositionerRan (calls : list Call) : bool := existsb isCallPositionGlyphs calls.

(** The backend wants supplementary positioning, as line 143 reads it:
    [!this.engine || this.engine.fallbackPosition]. *)
Definition wantsFallback (this : LayoutEngine) : bool :=
  match engine this with
  | None => true
  | Some e => Backend.fallbackPosition e (Backend.state e)
  end.

(** The engine object [this'] is [this] after some calls: the same font and
    the same backend, whose private state may have moved on. *)
Definition sameEngine (this this' : LayoutEngine) : Prop :=
  font this' = font this
  /\ match engine this, engine this' with
     | None, None => True
     | Some e, Some e' => exists b, e' = Backend.with_state e b
     | _, _ => False
     end.

(** ** The contract of the positioning collaborators

    Section 6 of the specification has the backend's [position], the mark
    positioner and the kern processor adjust positions in place: handed a
    glyph array and a position array of one length, they leave them of one
    length. *)
Definition aligned {G} (glyphRun : GlyphRun.t G) : Prop :=
  exists ps, GlyphRun.positions glyphRun = Some ps
             /\ length ps = length (GlyphRun.glyphs glyphRun).

Definition keepsLengths
    (f : list GlyphInfo.t -> option (list GlyphPosition.t)
         -> list GlyphInfo.t * option (list GlyphPosition.t)) : Prop :=
  forall gs ps, length ps = length gs ->
    exists gs' ps', f gs (Some ps) = (gs', Some ps') /\ length ps' = length gs'.

Definition backendKeepsLengths (e : Backend.t) : Prop :=
  forall f, Backend.position e = Some f ->
    forall b glyphRun, aligned glyphRun -> aligned (f b glyphRun).1.2.

(** The run's kerning toggle is [false]: kerning is explicitly disabled. *)
Definition kernDisabled {G} (glyphRun : GlyphRun.t G) : Prop :=
  GlyphRun.features glyphRun !! "kern"%string = Some false.

(** A backend whose phases may record the features they apply in the run's
    toggles, but neither disable kerning nor enable it against the caller. *)
Definition backendKeepsKern (e : Backend.t) : Prop :=
  (forall f, Backend.setup e = Some f ->
     forall b r, kernDisabled (f b r).2 <-> kernDisabled r)
  /\ (forall f, Backend.substitute e = Some f ->
       forall b r, kernDisabled (f b r).2 <-> kernDisabled r)
  /\ (forall f, Backend.position e = Some f ->
       forall b r, kernDisabled (f b r).1.2 <-> kernDisabled r).

(** ** Concrete fonts and collaborators for the instances below *)

Module Sample.
Definition glyph (id : Z) : Glyph.t := Glyph.mk id 600.

(** A font without shaping tables; its codepoint map sends a codepoint to
    itself and a codepoint with selector to their sum. *)
Definition font (kern : bool) : Font.t :=
  Font.mk false false false kern
          (fun cp vs => match vs with Some v => cp + v | None => cp end)
          glyph glyph.

(** A backend without state. *)
Definition backend
    (substitute : option (Run -> Run))
    (position : option (Run -> Run * option (gmap Tag bool)))
    (fallbackPosition : bool) (tags : list Tag) : Backend.t :=
  {| Backend.B := unit;
     Backend.state := tt;
     Backend.setup := None;
     Backend.substitute := (fun f (_ : unit) r => (tt, f r)) <$> substitute;
     Backend.position := (fun f (_ : unit) r => (tt, (f r).1, (f r).2)) <$> position;
     Backend.cleanup := Some (fun _ => tt);
     Backend.fallbackPosition := fun _ => fallbackPosition;
     Backend.getAvailableFeatures := fun _ _ _ => tags |}.

(** A substitution that doubles every glyph. *)
Definition double (r : Run) : Run :=
  GlyphRun.set_arrays (GlyphRun.glyphs r ++ GlyphRun.glyphs r) (GlyphRun.positions r) r.

(** A [position] that leaves the run as it is and reports [applied]. *)
Definition report (applied : option (gmap Tag bool)) (r : Run)
    : Run * option (gmap Tag bool) := (r, applied).

Definition toggles (features : FeaturesArg) : gmap Tag bool :=
  match features with
  | FeatArray tags => list_to_map ((fun tag => (tag, true)) <$> tags)
  | FeatObject m => m
  | _ => ∅
  end.

(** Positioners that touch nothing. *)
Definition env : Env :=
  {| Script_forString := fun _ => "latn"%string;
     AATLayoutEngine := fun _ => backend None None false [];
     OTLayoutEngine := fun _ => backend None (Some (report (Some ∅))) false [];
     positionGlyphs := fun _ gs ps => (gs, ps);
     process := fun _ gs ps => (gs, ps);
     GlyphRun_features := toggles;
     GlyphRun_stringIndices := fun _ => None |}.

Definition this (kern : bool) (e : option Backend.t) : LayoutEngine :=
  mkLayoutEngine (font kern) e None None.
End Sample.

(** ** Further definitions: the shape of decoded strings *)

(** [cps] covers the code units from [idx] up to [stop] without gap or
    overlap, one or two code units a codepoint. *)
Fixpoint tiles (idx : Z) (cps : list CodePoint) (stop : Z) : Prop :=
  match cps with
  | [] => idx = stop
  | c :: rest =>
      cp_index c = idx
      /\ (cp_next c = idx + 1 \/ cp_next c = idx + 2)
      /\ tiles (cp_next c) rest stop
  end.

Definition isHighSurrogate (u : Z) : Prop := 0xD800 <= u <= 0xDBFF.
Definition isLowSurrogate (u : Z) : Prop := 0xDC00 <= u <= 0xDFFF.

(** What a decoded codepoint is in terms of the code units it covers: one
    code unit taken as it is (a high surrogate only when no low surrogate
    follows it), or a surrogate pair combined into its scalar value. *)
Definition decodes (string : list Z) (c : CodePoint) : Prop :=
  (cp_next c = cp_index c + 1
   /\ string !! Z.to_nat (cp_index c) = Some (cp_code c)
   /\ ~ (isHighSurrogate (cp_code c)
         /\ exists l, string !! Z.to_nat (cp_index c + 1) = Some l /\ isLowSurrogate l))
  \/ (cp_next c = cp_index c + 2
      /\ exists h l, string !! Z.to_nat (cp_index c) = Some h
           /\ string !! Z.to_nat (cp_index c + 1) = Some l
           /\ isHighSurrogate h /\ isLowSurrogate l
           /\ cp_code c = 0x10000 + (h - 0xD800) * 0x400 + (l - 0xDC00)).

(** A string whose code units are 16-bit values. *)
Definition codeUnits (string : list Z) : Prop :=
  Forall (fun u => 0 <= u < 65536) string.

(** The offsets in [l] are at least [lo] and strictly increasing. *)
Fixpoint increasingFrom (lo : Z) (l : list Z) : Prop :=
  match l with
  | [] => True
  | x :: rest => lo <= x /\ increasingFrom (x + 1) rest
  end.

(** [String.fromCodePoint(cp)] for an integral [cp]: the one code unit, or the
    surrogate pair, of the codepoint; [None] stands for the RangeError thrown
    outside 0..0x10FFFF. *)
Definition fromCodePoint (cp : Z) : option (list Z) :=
  if (cp <? 0) || (0x10FFFF <? cp) then None
  else if cp <=? 0xFFFF then Some [cp]
  else Some [0xD800 + (cp - 0x10000) / 0x400; 0xDC00 + (cp - 0x10000) mod 0x400].

(** ** The reverse lookup (lines 215-230) *)

(** What [stringsForGlyph] consults beyond the records above: the reverse
    codepoint map of the font, [font._cmapProcessor.codePointsForGlyph], and
    the [stringsForGlyph] operation of a backend, which may be absent. *)
Record GlyphSources : Type := mkGlyphSources {
  codePointsForGlyph : Font.t -> Z -> list Z;
  engine_stringsForGlyph : Backend.t -> option (Z -> list (list Z));
}.

(** [result.add(x)] on a [Set] of strings, kept in insertion order. *)
Definition Set_add (x : list Z) (result : list (list Z)) : list (list Z) :=
  if bool_decide (x ∈ result) then result else result ++ [x].

(** The first loop: [result.add(String.fromCodePoint(codePoint))]. *)
Fixpoint stringsForGlyph_codePoints (codePoints : list Z) (result : list (list Z))
    : option (list (list Z)) :=
  match codePoints with
  | [] => Some result
  | codePoint :: codePoints =>
      match fromCodePoint codePoint with
      | Some s => stringsForGlyph_codePoints codePoints (Set_add s result)
      | None => None
      end
  end.

(** The second loop: [result.add(string)]. *)
Definition stringsForGlyph_strings (strings : list (list Z)) (result : list (list Z))
    : list (list Z) :=
  foldl (fun result string => Set_add string result) result strings.

(** [stringsForGlyph(gid)]; [None] when [String.fromCodePoint] throws. *)
Definition stringsForGlyph (src : GlyphSources) (this : LayoutEngine) (gid : Z)
    : option (list (list Z)) :=
  let codePoints := codePointsForGlyph src (font this) gid in
  match stringsForGlyph_codePoints codePoints [] with
  | Some result =>
      match engine this with
      | Some e =>
          match engine_stringsForGlyph src e with
          | Some f => Some (stringsForGlyph_strings (f gid) result)
          | None => Some result
          end
      | None => Some result
      end
  | None => None
  end.

(** ** Reading the trace, continued *)

(** The call a phase makes when the backend has the operation. *)
Definition phaseCall {A} (op : option A) (c : Call) : list Call :=
  match op with Some _ => [c] | None => [] end.

(** The backend calls of a layout call before the fallback gates, and the
    one after them. *)
Definition backendPhases (this : LayoutEngine) : list Call :=
  match engine this with
  | Some e =>
      phaseCall (Backend.setup e) CallSetup
      ++ phaseCall (Backend.substitute e) CallSubstitute
      ++ phaseCall (Backend.position e) CallPosition
  | None => []
  end.

Definition cleanupPhase (this : LayoutEngine) : list Call :=
  match engine this with
  | Some e => phaseCall (Backend.cleanup e) CallCleanup
  | None => []
  end.

(** The glyph as the hiding pass leaves it. *)
Definition hiddenGlyph (font : Font.t) (g : GlyphInfo.t) : GlyphInfo.t :=
  if firstCodePointIgnorable g
  then GlyphInfo.set_id (Glyph.id (Font.glyphForCodePoint font 0x20)) g
  else g.

(** A positioner that leaves the glyph array as it is. *)
Definition keepsGlyphs
    (f : list GlyphInfo.t -> option (list GlyphPosition.t)
         -> list GlyphInfo.t * option (list GlyphPosition.t)) : Prop :=
  forall gs ps, (f gs ps).1 = gs.

(** The codepoints that are no variation selectors: the bases. *)
Definition bases (cps : list CodePoint) : list CodePoint :=
  List.filter (fun c => negb (isVariationSelector (cp_code c))) cps.

(** [positions[i]], when the array and the element are there. *)
Definition positionAt (positions : option (list GlyphPosition.t)) (i : nat)
    : option GlyphPosition.t :=
  match positions with Some ps => ps !! i | None => None end.

(** The tags the backend reports as available. *)
Definition reportedFeatures (this : LayoutEngine) (script language : option Tag)
    : list Tag :=
  match engine this with
  | Some e => Backend.getAvailableFeatures e (Backend.state e) script language
  | None => []
  end.

(** The strings the backend contributes for a glyph. *)
Definition backendStrings (src : GlyphSources) (this : LayoutEngine) (gid : Z)
    : list (list Z) :=
  match engine this with
  | Some e =>
      match engine_stringsForGlyph src e with
      | Some f => f gid
      | None => []
      end
  | None => []
  end.

(** A reverse map and a backend operation for the instances below: glyph
    0x66 comes from U+0066, listed twice, and from U+1F600; the backend adds
    the ligature string "fi" and, once more, "f". *)
Definition sampleSources : GlyphSources :=
  {| codePointsForGlyph := fun _ gid =>
       if gid =? 0x66 then [0x66; 0x1F600; 0x66] else [];
     engine_stringsForGlyph := fun _ =>
       Some (fun gid => if gid =? 0x66 then [[0x66; 0x69]; [0x66]] else []) |}.

(** The collaborator [this] caches, or the one it builds on first use. *)
Definition theUnicodeLayoutEngine (this : LayoutEngine) : UnicodeLayoutEngine :=
  match unicodeLayoutEngine this with
  | Some u => u
  | None => {| ule_font := font this |}
  end.

Definition theKernProcessor (this : LayoutEngine) : KernProcessor :=
  match kernProcessor this with
  | Some k => k
  | None => {| kp_font := font this |}
  end.

(** A trace of at most one call, of the given kind. *)
Definition atMostOne (kind : Call -> bool) (calls : list Call) : Prop :=
  calls = [] \/ exists c, calls = [c] /\ kind c = true.

(** What the backend phases do to the engine object: they move the backend's
    state and touch nothing else. *)
Definition backendMoved (this this' : LayoutEngine) : Prop :=
  sameEngine this this'
  /\ unicodeLayoutEngine this' = unicodeLayoutEngine this
  /\ kernProcessor this' = kernProcessor this.

(** * Properties *)

(** Decide the comparisons the context settles, then split on the others. *)
Ltac settle_cmp :=
  repeat match goal with
  | |- context [ (?a <=? ?b) ] =>
      first [ rewrite (proj2 (Z.leb_le a b)) by lia
            | rewrite (proj2 (Z.leb_gt a b)) by lia ]
  | |- context [ (?a =? ?b) ] =>
      first [ rewrite (proj2 (Z.eqb_eq a b)) by lia
            | rewrite (proj2 (Z.eqb_neq a b)) by lia ]
  end.

Ltac split_cmp :=
  repeat match goal with
  | |- context [ (?a <=? ?b) ] => destruct (Z.leb_spec a b)
  | |- context [ (?a =? ?b) ] => destruct (Z.eqb_spec a b)
  end.

Ltac table_leaf := settle_cmp; split_cmp; simpl; first [ reflexivity | exfalso; lia ].

(** ** The cluster builder *)

Section ClusterBuilder.
Variable font : Font.t.

(** A decoded codepoint takes one or two code units and stays inside the
    string. *)
Lemma decodeUTF16_next (string : list Z) (idx : Z) :
  idx < Z.of_nat (length string) ->
  idx + 1 <= (decodeUTF16 string idx).2 <= idx + 2
  /\ (decodeUTF16 string idx).2 <= Z.of_nat (length string).
Proof.
  intros Hidx. unfold decodeUTF16.
  destruct (_ && (idx + 1 <? _)) eqn:Hpair; [|simpl; lia].
  apply andb_true_iff in Hpair as [_ Hlt%Z.ltb_lt].
  destruct (_ && _); simpl; lia.
Qed.

Lemma variationSelectorState_cases (code : Z) :
  variationSelectorState code = 1 /\ isVariationSelector code = true
  \/ variationSelectorState code = 0 /\ isVariationSelector code = false.
Proof.
  unfold isVariationSelector, variationSelectorState.
  destruct (_ || _); [left | right]; done.
Qed.

(** The loop, from any of its states, returns what it had collected
    followed by the clustering of the codepoints still to be read. *)
Lemma glyphsForString_loop_units (fuel : nat) :
  forall (string : list Z) (idx last state : Z) (glyphs : list GlyphInfo.t)
         (pending : option CodePoint),
    idx <= Z.of_nat (length string) ->
    (Z.to_nat (Z.of_nat (length string) - idx) <= fuel)%nat ->
    tracks pending idx last state ->
    glyphsForString_loop (S fuel) font string idx last state glyphs
    = Some (glyphs ++ units font pending (decode_loop fuel string idx)).
Proof.
  induction fuel as [|fuel IH]; intros string idx last state glyphs pending Hle Hfuel Htr.
  - assert (idx = Z.of_nat (length string)) as -> by lia.
    cbn [glyphsForString_loop decode_loop].
    rewrite Z.leb_refl, Z.ltb_irrefl. cbn [units].
    rewrite (proj2 (Z.leb_gt _ _)) by lia.
    destruct pending as [b|]; cbn [tracks flush] in *.
    + destruct Htr as (-> & <- & <-). reflexivity.
    + destruct (Z.eqb_spec state 0); [done|]. cbn. by rewrite app_nil_r.
  - cbn [decode_loop]. remember (S fuel) as fuel' eqn:Hfuel'.
    cbn [glyphsForString_loop]. subst fuel'.
    rewrite (proj2 (Z.leb_le _ _)) by lia.
    destruct (Z.ltb_spec idx (Z.of_nat (length string))) as [Hlt|Hge].
    + pose proof (decodeUTF16_next string idx Hlt) as [Hnext Hin].
      destruct (decodeUTF16 string idx) as [code next] eqn:Hdec. cbn [snd] in *.
      cbn [units cp_code].
      destruct (variationSelectorState_cases code) as [[Hs Hv]|[Hs Hv]];
        rewrite Hs, Hv.
      * rewrite (IH string next code 1 _ None) by (cbn; lia).
        destruct pending as [b|]; cbn [tracks] in Htr.
        -- destruct Htr as (-> & <- & <-). cbn. by rewrite <- app_assoc.
        -- destruct (Z.eqb_spec state 0); [done|]. reflexivity.
      * rewrite (IH string next code 0 _ (Some (mkCodePoint idx code next)))
          by (cbn; lia).
        destruct pending as [b|]; cbn [tracks flush] in *.
        -- destruct Htr as (-> & <- & <-). cbn. by rewrite <- app_assoc.
        -- destruct (Z.eqb_spec state 0); [done|]. reflexivity.
    + assert (idx = Z.of_nat (length string)) as -> by lia.
      cbn [units].
      assert (forall g, glyphsForString_loop (S fuel) font string
                          (Z.of_nat (length string) + 1) 0 0 g = Some g) as Hstop.
      { intros g. cbn [glyphsForString_loop]. by rewrite (proj2 (Z.leb_gt _ _)) by lia. }
      destruct pending as [b|]; cbn [tracks flush] in *.
      * destruct Htr as (-> & <- & Hnext). cbn [Z.eqb andb unit1].
        unfold unit1. by rewrite Hstop, Hnext.
      * destruct (Z.eqb_spec state 0); [done|]. cbn [andb].
        by rewrite Hstop, app_nil_r.
Qed.

(** The loop ends within the fuel [glyphsForString] gives it. *)
Lemma glyphsForString_total (string : list Z) :
  glyphsForString_loop (S (length string)) font string 0 (-1) (-1) []
  = Some (glyphsForString font string).
Proof.
  unfold glyphsForString.
  by rewrite (glyphsForString_loop_units _ _ _ _ _ _ None) by (cbn; lia).
Qed.

(** The builder is the clustering of the decoded codepoints. *)
Lemma glyphsForString_units (string : list Z) :
  glyphsForString font string = units font None (decode string).
Proof.
  unfold glyphsForString, decode.
  by rewrite (glyphsForString_loop_units _ _ _ _ _ _ None) by (cbn; lia).
Qed.

(** A codepoint that is no selector closes what came before it: the units
    before it are those of the prefix alone. *)
Lemma units_app_base (pre : list CodePoint) :
  forall (pending : option CodePoint) (b : CodePoint) (rest : list CodePoint),
    isVariationSelector (cp_code b) = false ->
    units font pending (pre ++ b :: rest)
    = units font pending pre ++ units font (Some b) rest.
Proof.
  induction pre as [|c pre IH]; intros pending b rest Hb; cbn [units app].
  - by rewrite Hb.
  - destruct (isVariationSelector (cp_code c)); rewrite IH by done;
      by rewrite app_assoc.
Qed.

(** After a prefix that leaves no base pending, the clustering starts
    afresh. *)
Lemma units_app_fresh (pre : list CodePoint) :
  forall (pending : option CodePoint) (rest : list CodePoint),
    match last pre with
    | Some c => isVariationSelector (cp_code c) = true
    | None => pending = None
    end ->
    units font pending (pre ++ rest) = units font pending pre ++ units font None rest.
Proof.
  induction pre as [|c pre IH]; intros pending rest Hlast; cbn [units app].
  - cbn in Hlast. by subst.
  - destruct pre as [|c' pre].
    + cbn in Hlast. rewrite Hlast. cbn [units app flush].
      by rewrite !app_nil_r.
    + change (last (c :: c' :: pre)) with (last (c' :: pre)) in Hlast.
      assert (forall p, units font p ((c' :: pre) ++ rest)
                        = units font p (c' :: pre) ++ units font None rest) as IH'.
      { intros p. apply IH. by destruct (last (c' :: pre)) eqn:E;
          [| apply last_None in E]. }
      destruct (isVariationSelector (cp_code c)); rewrite IH';
        by rewrite app_assoc.
Qed.
End ClusterBuilder.

(** The state the loop computes at line 105 tells the selectors apart. *)
Lemma isVariationSelector_true (code : Z) :
  isVariationSelector code = true <-> inSelectorRanges code.
Proof.
  unfold isVariationSelector, variationSelectorState, inSelectorRanges.
  destruct (Z.leb_spec 0xfe00 code), (Z.leb_spec code 0xfe0f),
    (Z.leb_spec 0xe0100 code), (Z.leb_spec code 0xe01ef); cbn; split;
    first [done | lia | intros; exfalso; lia].
Qed.

Lemma isVariationSelector_false (code : Z) :
  isVariationSelector code = false <-> ~ inSelectorRanges code.
Proof.
  rewrite <- isVariationSelector_true. by destruct (isVariationSelector code).
Qed.

(** No unit has a variation selector for its base. *)
Lemma units_base_not_selector (font : Font.t) (cps : list CodePoint) :
  forall pending : option CodePoint,
    (forall b, pending = Some b -> isVariationSelector (cp_code b) = false) ->
    Forall (fun g => exists ch, GlyphInfo.codePoints g !! 0%nat = Some ch
                                /\ isVariationSelector ch = false)
           (units font pending cps).
Proof.
  induction cps as [|c cps IH]; intros pending Hp; cbn [units].
  - destruct pending as [b|]; cbn; [|constructor].
    constructor; [|constructor]. exists (cp_code b). split; [done|]. by apply Hp.
  - destruct (isVariationSelector (cp_code c)) eqn:Hc; apply Forall_app; split.
    + destruct pending as [b|]; [|constructor].
      constructor; [|constructor]. exists (cp_code b). split; [done|]. by apply Hp.
    + apply IH. by intros b [=].
    + destruct pending as [b|]; cbn; [|constructor].
      constructor; [|constructor]. exists (cp_code b). split; [done|]. by apply Hp.
    + apply IH. by intros b [= <-].
Qed.

(** Every unit records, as its offset, one less than the offset that follows
    its base codepoint: the offset of the last code unit of the base. *)
Lemma units_offsets (font : Font.t) (cps : list CodePoint) :
  forall pending : option CodePoint,
    Forall (fun g => exists b, (pending = Some b \/ b ∈ cps)
                               /\ GlyphInfo.codePoints g !! 0%nat = Some (cp_code b)
                               /\ GlyphInfo.stringIndex g = cp_next b - 1)
           (units font pending cps).
Proof.
  induction cps as [|c cps IH]; intros pending; cbn [units].
  - destruct pending as [b|]; cbn; [|constructor].
    constructor; [|constructor]. exists b. auto.
  - assert (Forall (fun g => exists b, (pending = Some b \/ b ∈ c :: cps)
                        /\ GlyphInfo.codePoints g !! 0%nat = Some (cp_code b)
                        /\ GlyphInfo.stringIndex g = cp_next b - 1)
                   (match pending with Some b => [unit2 font b c] | None => [] end)
            /\ Forall (fun g => exists b, (pending = Some b \/ b ∈ c :: cps)
                        /\ GlyphInfo.codePoints g !! 0%nat = Some (cp_code b)
                        /\ GlyphInfo.stringIndex g = cp_next b - 1)
                   (flush font pending)) as [H2 H1].
    { destruct pending as [b|]; cbn; split; try constructor; try constructor;
        exists b; auto. }
    destruct (isVariationSelector (cp_code c)); apply Forall_app; split; try done.
    + eapply Forall_impl; [apply (IH None)|]. intros g (b & [?|Hb] & ?); [done|].
      exists b. split; [right; by apply elem_of_cons; right | done].
    + eapply Forall_impl; [apply (IH (Some c))|]. intros g (b & [[= <-]|Hb] & ?).
      * exists c. split; [right; by apply elem_of_cons; left | done].
      * exists b. split; [right; by apply elem_of_cons; right | done].
Qed.

(** The decoded codepoints tile the string from [idx] on: each starts where
    the one before ended and takes one or two code units. *)
Lemma decode_loop_width (fuel : nat) (string : list Z) :
  forall idx : Z,
    Forall (fun c => cp_next c = cp_index c + 1 \/ cp_next c = cp_index c + 2)
           (decode_loop fuel string idx).
Proof.
  induction fuel as [|fuel IH]; intros idx; cbn [decode_loop];
    destruct (Z.ltb_spec idx (Z.of_nat (length string))) as [Hlt|Hge];
    [constructor | constructor | | constructor].
  pose proof (decodeUTF16_next string idx Hlt) as [Hnext _].
  destruct (decodeUTF16 string idx) as [code next]. cbn in *.
  constructor; [cbn; lia | apply IH].
Qed.

(** Every unit the builder emits has a decoded codepoint for its base and
    records the offset of that codepoint's last code unit: where the base
    begins when it takes one code unit, one further when it takes two. *)
Lemma glyphsForString_offsets (font : Font.t) (string : list Z) :
  Forall (fun g => exists b, b ∈ decode string
                    /\ GlyphInfo.codePoints g !! 0%nat = Some (cp_code b)
                    /\ (cp_next b = cp_index b + 1 /\ GlyphInfo.stringIndex g = cp_index b
                        \/ cp_next b = cp_index b + 2
                           /\ GlyphInfo.stringIndex g = cp_index b + 1))
         (glyphsForString font string).
Proof.
  rewrite glyphsForString_units.
  eapply Forall_impl; [apply units_offsets|].
  intros g (b & [?|Hb] & Hcode & Hidx); [done|].
  exists b. split; [done|]. split; [done|].
  pose proof (decode_loop_width (length string) string 0) as Hw.
  rewrite Forall_forall in Hw. specialize (Hw b Hb). lia.
Qed.

(** C5, at the input that fails. The string is the surrogate pair
    D83D DE00, the one codepoint U+1F600, whose cluster begins at offset 0;
    the unit the builder emits records offset 1, that of the low surrogate. *)
Theorem glyphsForString_surrogate_pair_offset (font : Font.t) :
  glyphsForString font [0xD83D; 0xDE00]
  = [ {| GlyphInfo.id := Font.cmap_lookup font 0x1F600 None;
         GlyphInfo.codePoints := [0x1F600];
         GlyphInfo.stringIndex := 1 |} ].
Proof. reflexivity. Qed.

(** C6 (amended). Wherever the decoded string has a codepoint [a] that is no
    variation selector directly followed by a codepoint [b]: if [b] is a
    variation selector (in FE00..FE0F or E0100..E01EF) the two yield exactly
    one unit, carrying both codepoints, its glyph id looked up with base and
    selector; if [b] is an ordinary codepoint too they yield two separate
    units, the first with [a] alone, looked up with one argument, the second
    with base [b]. This second unit is [b] alone, looked up with one
    argument, when no selector follows [b]; when a selector follows [b] it is
    the unit of the first case, carrying [b] and that selector and looked up
    with both. The units before are those of the codepoints before, the units
    after those of the codepoints after. *)
Theorem glyphsForString_base_and_selector (font : Font.t) (string : list Z)
    (pre post : list CodePoint) (a b : CodePoint) :
  decode string = pre ++ a :: b :: post ->
  ~ inSelectorRanges (cp_code a) ->
  (inSelectorRanges (cp_code b) ->
   glyphsForString font string
   = units font None pre
     ++ [ {| GlyphInfo.id := Font.cmap_lookup font (cp_code a) (Some (cp_code b));
             GlyphInfo.codePoints := [cp_code a; cp_code b];
             GlyphInfo.stringIndex := cp_next a - 1 |} ]
     ++ units font None post)
  /\ (~ inSelectorRanges (cp_code b) ->
      exists g rest,
        glyphsForString font string
        = units font None pre
          ++ [ {| GlyphInfo.id := Font.cmap_lookup font (cp_code a) None;
                  GlyphInfo.codePoints := [cp_code a];
                  GlyphInfo.stringIndex := cp_next a - 1 |}; g ]
          ++ rest
        /\ GlyphInfo.codePoints g !! 0%nat = Some (cp_code b)
        /\ ((forall c, head post = Some c -> ~ inSelectorRanges (cp_code c)) ->
            g = {| GlyphInfo.id := Font.cmap_lookup font (cp_code b) None;
                   GlyphInfo.codePoints := [cp_code b];
                   GlyphInfo.stringIndex := cp_next b - 1 |}
            /\ rest = units font None post)
        /\ (forall c, head post = Some c -> inSelectorRanges (cp_code c) ->
            g = {| GlyphInfo.id :=
                     Font.cmap_lookup font (cp_code b) (Some (cp_code c));
                   GlyphInfo.codePoints := [cp_code b; cp_code c];
                   GlyphInfo.stringIndex := cp_next b - 1 |}
            /\ rest = units font None (tail post))).
Proof.
  intros Hdec Ha%isVariationSelector_false.
  rewrite glyphsForString_units, Hdec, units_app_base by done.
  split.
  - intros Hb%isVariationSelector_true. cbn [units]. by rewrite Hb.
  - intros Hb%isVariationSelector_false. cbn [units]. rewrite Hb. cbn [flush app].
    destruct post as [|c post]; cbn [units flush].
    + exists (unit1 font b), []. split; [done|]. split; [done|].
      split; [by repeat split|]. by intros c' [=].
    + destruct (isVariationSelector (cp_code c)) eqn:Hc.
      * exists (unit2 font b c), (units font None post).
        split; [done|]. split; [done|]. split.
        -- intros Hpost.
           specialize (Hpost c eq_refl). apply isVariationSelector_false in Hpost.
           congruence.
        -- by intros c' [= <-] _.
      * exists (unit1 font b), (units font (Some c) post).
        split; [done|]. split; [done|]. split; [done|].
        intros c' [= <-] Hsel%isVariationSelector_true. congruence.
Qed.

Lemma glyphsForString_base_and_selector_witness :
  decode [0x61; 0xFE0F; 0x62; 0x63]
  = [] ++ mkCodePoint 0 0x61 1 :: mkCodePoint 1 0xFE0F 2
    :: [mkCodePoint 2 0x62 3; mkCodePoint 3 0x63 4]
  /\ ~ inSelectorRanges 0x61
  /\ inSelectorRanges 0xFE0F
  /\ glyphsForString (Sample.font false) [0x61; 0xFE0F; 0x62; 0x63]
     = [ GlyphInfo.mk (0x61 + 0xFE0F) [0x61; 0xFE0F] 0;
         GlyphInfo.mk 0x62 [0x62] 2; GlyphInfo.mk 0x63 [0x63] 3 ].
Proof.
  assert (~ inSelectorRanges 0x61) as Ha by (unfold inSelectorRanges; lia).
  assert (inSelectorRanges 0xFE0F) as Hb by (unfold inSelectorRanges; lia).
  split; [reflexivity|]. split; [exact Ha|]. split; [exact Hb|].
  destruct (glyphsForString_base_and_selector (Sample.font false)
              [0x61; 0xFE0F; 0x62; 0x63]
              [] [mkCodePoint 2 0x62 3; mkCodePoint 3 0x63 4]
              (mkCodePoint 0 0x61 1) (mkCodePoint 1 0xFE0F 2)
              eq_refl Ha) as [H _].
  rewrite (H Hb). reflexivity.
Defined.

(** C6 as stated fails where the second of two ordinary codepoints is itself
    followed by a selector. In the string of U+0061, U+0062 and U+FE0F the
    first two codepoints are consecutive and ordinary, and the unit of the
    second carries two codepoints and is looked up with base and selector:
    no unit holds U+0062 alone. *)
Lemma glyphsForString_ordinary_pair_before_selector :
  let font := Sample.font false in
  let string := [0x61; 0x62; 0xFE0F] in
  decode string
  = [mkCodePoint 0 0x61 1; mkCodePoint 1 0x62 2; mkCodePoint 2 0xFE0F 3]
  /\ ~ inSelectorRanges 0x61 /\ ~ inSelectorRanges 0x62
  /\ glyphsForString font string
     = [ {| GlyphInfo.id := Font.cmap_lookup font 0x61 None;
            GlyphInfo.codePoints := [0x61];
            GlyphInfo.stringIndex := 0 |};
         {| GlyphInfo.id := Font.cmap_lookup font 0x62 (Some 0xFE0F);
            GlyphInfo.codePoints := [0x62; 0xFE0F];
            GlyphInfo.stringIndex := 1 |} ]
  /\ Font.cmap_lookup font 0x62 (Some 0xFE0F) <> Font.cmap_lookup font 0x62 None
  /\ ~ (exists g, g ∈ glyphsForString font string
                  /\ GlyphInfo.codePoints g = [0x62]).
Proof.
  cbv zeta. split; [reflexivity|].
  split; [unfold inSelectorRanges; lia|]. split; [unfold inSelectorRanges; lia|].
  split; [reflexivity|]. split; [discriminate|].
  intros (g & Hg & Hcp).
  change (glyphsForString (Sample.font false) [0x61; 0x62; 0xFE0F])
    with [GlyphInfo.mk 0x61 [0x61] 0; GlyphInfo.mk (0x62 + 0xFE0F) [0x62; 0xFE0F] 1] in Hg.
  apply elem_of_cons in Hg as [-> | Hg]; [discriminate|].
  apply elem_of_cons in Hg as [-> | Hg]; [discriminate|]. by apply elem_of_nil in Hg.
Qed.

(** C10. A variation selector that starts the string or directly follows
    another variation selector yields no unit: the units of the string are
    those of the codepoints before it followed by those of the codepoints
    after it, and no unit of any string has a selector for its base. *)
Theorem glyphsForString_stray_selector (font : Font.t) (string : list Z)
    (pre post : list CodePoint) (v : CodePoint) :
  decode string = pre ++ v :: post ->
  inSelectorRanges (cp_code v) ->
  (forall c, last pre = Some c -> inSelectorRanges (cp_code c)) ->
  glyphsForString font string = units font None pre ++ units font None post
  /\ Forall (fun g => exists ch, GlyphInfo.codePoints g !! 0%nat = Some ch
                                 /\ ~ inSelectorRanges ch)
            (glyphsForString font string).
Proof.
  intros Hdec Hv%isVariationSelector_true Hpre. rewrite glyphsForString_units. split.
  - rewrite Hdec, units_app_fresh.
    + cbn [units]. by rewrite Hv.
    + destruct (last pre) as [c|]; [|done].
      apply isVariationSelector_true. by apply Hpre.
  - eapply Forall_impl; [by apply units_base_not_selector|].
    intros g (ch & Hch & Hsel). exists ch. split; [done|].
    by apply isVariationSelector_false.
Qed.

Lemma glyphsForString_stray_selector_witness :
  decode [0x61; 0xFE0F; 0xFE0E; 0x62]
  = [mkCodePoint 0 0x61 1; mkCodePoint 1 0xFE0F 2] ++ mkCodePoint 2 0xFE0E 3
    :: [mkCodePoint 3 0x62 4]
  /\ inSelectorRanges 0xFE0E
  /\ inSelectorRanges 0xFE0F
  /\ glyphsForString (Sample.font false) [0x61; 0xFE0F; 0xFE0E; 0x62]
     = [ GlyphInfo.mk (0x61 + 0xFE0F) [0x61; 0xFE0F] 0; GlyphInfo.mk 0x62 [0x62] 3 ].
Proof.
  assert (inSelectorRanges 0xFE0E) as Hv by (unfold inSelectorRanges; lia).
  assert (inSelectorRanges 0xFE0F) as Hc by (unfold inSelectorRanges; lia).
  split; [reflexivity|]. split; [exact Hv|]. split; [exact Hc|].
  destruct (glyphsForString_stray_selector (Sample.font false)
              [0x61; 0xFE0F; 0xFE0E; 0x62]
              [mkCodePoint 0 0x61 1; mkCodePoint 1 0xFE0F 2] [mkCodePoint 3 0x62 4]
              (mkCodePoint 2 0xFE0E 3) eq_refl Hv) as [H _].
  - intros c [= <-]. exact Hc.
  - rewrite H. reflexivity.
Defined.

(** ** The default-ignorable classification *)

Lemma toInt32_small (n : Z) : -2147483648 <= n < 2147483648 -> toInt32 n = n.
Proof.
  intros H. unfold toInt32. change (2 ^ 31) with 2147483648.
  change (2 ^ 32) with 4294967296. rewrite Z.mod_small; lia.
Qed.

(** Outside the Unicode codespace both the code and the table answer no,
    whatever the shifts make of the number. *)
Lemma isDefaultIgnorable_outside (ch : Z) :
  ~ (0 <= ch < 0x110000) ->
  isDefaultIgnorable ch = false /\ defaultIgnorableTable ch = false.
Proof.
  intros H. unfold isDefaultIgnorable, defaultIgnorableTable, inRange.
  generalize (js_sar ch 16) (js_sar ch 8). intros plane page.
  assert (ch < 0 \/ 0x110000 <= ch) as [C|C] by lia; split.
  - repeat match goal with
    | |- context [ (?a <=? ch) ] => rewrite (proj2 (Z.leb_gt a ch)) by lia
    | |- context [ (ch =? ?b) ] => rewrite (proj2 (Z.eqb_neq ch b)) by lia
    end; simpl.
    repeat match goal with |- context [ if ?c then _ else _ ] => destruct c end;
      reflexivity.
  - repeat match goal with
    | |- context [ (?a <=? ch) ] => rewrite (proj2 (Z.leb_gt a ch)) by lia
    | |- context [ (ch =? ?b) ] => rewrite (proj2 (Z.eqb_neq ch b)) by lia
    end; reflexivity.
  - repeat match goal with
    | |- context [ (ch <=? ?a) ] => rewrite (proj2 (Z.leb_gt ch a)) by lia
    | |- context [ (ch =? ?b) ] => rewrite (proj2 (Z.eqb_neq ch b)) by lia
    end; rewrite ?andb_false_r; simpl.
    repeat match goal with |- context [ if ?c then _ else _ ] => destruct c end;
      reflexivity.
  - repeat match goal with
    | |- context [ (ch <=? ?a) ] => rewrite (proj2 (Z.leb_gt ch a)) by lia
    | |- context [ (ch =? ?b) ] => rewrite (proj2 (Z.eqb_neq ch b)) by lia
    end; rewrite ?andb_false_r; reflexivity.
Qed.

(** Inside it the plane is [ch / 65536] and the page [ch / 256], and each
    branch of the two switches confines [ch] to one page or plane. *)
Lemma isDefaultIgnorable_inside (ch : Z) :
  0 <= ch < 0x110000 -> isDefaultIgnorable ch = defaultIgnorableTable ch.
Proof.
  intros H. unfold isDefaultIgnorable, defaultIgnorableTable, inRange, js_sar.
  rewrite toInt32_small by lia.
  rewrite !Z.shiftr_div_pow2 by lia.
  change (2 ^ 16) with 65536. change (2 ^ 8) with 256.
  pose proof (Z.div_mod ch 65536 ltac:(lia)) as E1.
  pose proof (Z.mod_pos_bound ch 65536 ltac:(lia)) as B1.
  pose proof (Z.div_mod ch 256 ltac:(lia)) as E2.
  pose proof (Z.mod_pos_bound ch 256 ltac:(lia)) as B2.
  revert E1 B1 E2 B2.
  generalize (ch / 65536) (ch mod 65536) (ch / 256) (ch mod 256).
  intros plane r1 page r2 E1 B1 E2 B2.
  cbv zeta.
  destruct (Z.eqb_spec plane 0) as [P0|P0].
  - destruct (Z.eqb_spec page 0x00); [table_leaf|].
    destruct (Z.eqb_spec page 0x03); [table_leaf|].
    destruct (Z.eqb_spec page 0x06); [table_leaf|].
    destruct (Z.eqb_spec page 0x17); [table_leaf|].
    destruct (Z.eqb_spec page 0x18); [table_leaf|].
    destruct (Z.eqb_spec page 0x20); [table_leaf|].
    destruct (Z.eqb_spec page 0xFE); [table_leaf|].
    destruct (Z.eqb_spec page 0xFF); [table_leaf|].
    table_leaf.
  - destruct (Z.eqb_spec plane 0x01); [table_leaf|].
    destruct (Z.eqb_spec plane 0x0E); [table_leaf|].
    table_leaf.
Qed.

(** C4. [isDefaultIgnorable] is a function of the codepoint alone and is true
    exactly on the tabulated codepoints and ranges: U+00AD, U+034F, U+061C,
    U+17B4..17B5, U+180B..180E, U+200B..200F, U+202A..202E, U+2060..206F,
    U+FE00..FE0F, U+FEFF, U+FFF0..FFF8, U+1BCA0..1BCA3, U+1D173..1D17A and
    U+E0000..E0FFF. In particular it is false on U+115F, U+1160, U+3164,
    U+FFA0 and U+0041, and at every range it is true on both bounds and false
    one below the lower and one above the upper bound. *)
Theorem isDefaultIgnorable_exact :
  (forall ch : Z, isDefaultIgnorable ch = defaultIgnorableTable ch)
  /\ isDefaultIgnorable 0x115F = false /\ isDefaultIgnorable 0x1160 = false
  /\ isDefaultIgnorable 0x3164 = false /\ isDefaultIgnorable 0xFFA0 = false
  /\ isDefaultIgnorable 0x0041 = false
  /\ Forall (fun r => isDefaultIgnorable r.1 = true
                      /\ isDefaultIgnorable (r.1 - 1) = false
                      /\ isDefaultIgnorable r.2 = true
                      /\ isDefaultIgnorable (r.2 + 1) = false)
            defaultIgnorableRanges.
Proof.
  split.
  - intros ch. destruct (Z_lt_le_dec ch 0) as [L|L].
    + destruct (isDefaultIgnorable_outside ch) as [-> ->]; [lia | reflexivity].
    + destruct (Z_lt_le_dec ch 0x110000) as [U|U].
      * apply isDefaultIgnorable_inside; lia.
      * destruct (isDefaultIgnorable_outside ch) as [-> ->]; [lia | reflexivity].
  - repeat split; try reflexivity.
    unfold defaultIgnorableRanges. repeat constructor.
Qed.

(** ** The feature enumeration *)

Lemma indexOf_absent (l : list Tag) (x : Tag) :
  (indexOf l x = -1 <-> x ∉ l) /\ -1 <= indexOf l x.
Proof.
  induction l as [|y l [IH Hge]]; cbn [indexOf].
  - split; [|lia]. split; [intros _; apply not_elem_of_nil | done].
  - destruct (String.eqb_spec y x) as [->|Hne].
    + split; [|lia]. split; [done|]. intros H. exfalso. apply H. by left.
    + destruct (Z.eqb_spec (indexOf l x) (-1)) as [E|E].
      * split; [|lia]. split; [|done]. intros _.
        apply not_elem_of_cons. split; [done | by apply IH].
      * split; [|lia]. split; [lia|]. intros H. exfalso.
        apply not_elem_of_cons in H as [_ H]. apply IH in H. done.
Qed.

Lemma countTag_absent (tag : Tag) (tags : list Tag) :
  tag ∉ tags -> countTag tag tags = 0%nat.
Proof.
  unfold countTag. induction tags as [|t tags IH]; intros H; [done|].
  apply not_elem_of_cons in H as [Hne H].
  rewrite filter_cons_False by done. by apply IH.
Qed.

Lemma countTag_present (tag : Tag) (tags : list Tag) :
  tag ∈ tags -> (1 <= countTag tag tags)%nat.
Proof.
  unfold countTag. induction tags as [|t tags IH]; intros H.
  - by apply elem_of_nil in H.
  - destruct (decide (t = tag)) as [->|Hne].
    + rewrite filter_cons_True by done. cbn. lia.
    + rewrite filter_cons_False by done. apply IH.
      apply elem_of_cons in H as [->|H]; done.
Qed.

Lemma countTag_app (tag : Tag) (l1 l2 : list Tag) :
  countTag tag (l1 ++ l2) = (countTag tag l1 + countTag tag l2)%nat.
Proof. unfold countTag. by rewrite filter_app, length_app. Qed.

(** C7 (amended). [getAvailableFeatures] returns the tags the backend reports,
    in the backend's order, followed by one kerning tag when the font has a
    legacy kern table and the backend's list lacks the tag. The engine adds
    no duplicate: the result is free of duplicates when the backend's list
    is, and with a kern table it has the kerning tag exactly once when the
    backend reports it at most once. *)
Theorem getAvailableFeatures_kern_once (this : LayoutEngine) (script language : option Tag) :
  let reported :=
    match engine this with
    | Some e => Backend.getAvailableFeatures e (Backend.state e) script language
    | None => []
    end in
  getAvailableFeatures this script language
  = reported ++ (if Font.kern (font this) && bool_decide ("kern"%string ∉ reported)
                 then ["kern"%string] else [])
  /\ (NoDup reported -> NoDup (getAvailableFeatures this script language))
  /\ (Font.kern (font this) = true ->
      (countTag "kern" reported <= 1)%nat ->
      countTag "kern" (getAvailableFeatures this script language) = 1%nat).
Proof.
  intros reported. unfold getAvailableFeatures. fold reported.
  destruct (indexOf_absent reported "kern") as [Habs _].
  destruct (Font.kern (font this)); cbn [andb].
  - destruct (Z.eqb_spec (indexOf reported "kern") (-1)) as [E|E].
    + apply Habs in E. rewrite bool_decide_eq_true_2 by done.
      split; [done|]. split.
      * intros Hnd. apply NoDup_app. split; [done|]. split.
        -- intros t Ht ->%list_elem_of_singleton. done.
        -- apply NoDup_singleton.
      * intros _ _. rewrite countTag_app, countTag_absent by done. reflexivity.
    + assert ("kern"%string ∈ reported) as Hin.
      { destruct (decide ("kern"%string ∈ reported)); [done|]. by apply Habs in n. }
      rewrite bool_decide_eq_false_2 by (intros H; done).
      rewrite app_nil_r. split; [done|]. split; [done|].
      intros _ Hle. apply countTag_present in Hin. lia.
  - rewrite app_nil_r. split; [done|]. split; [done|]. intros [=].
Qed.

Lemma getAvailableFeatures_kern_once_witness :
  NoDup ["liga"%string; "mark"%string]
  /\ getAvailableFeatures
       (Sample.this true (Some (Sample.backend None None false ["liga"; "mark"]%string)))
       None None
     = ["liga"; "mark"; "kern"]%string
  /\ countTag "kern"
       (getAvailableFeatures
          (Sample.this true (Some (Sample.backend None None false ["liga"; "mark"]%string)))
          None None) = 1%nat.
Proof.
  pose proof (getAvailableFeatures_kern_once
                (Sample.this true
                   (Some (Sample.backend None None false ["liga"; "mark"]%string)))
                None None) as (Heq & _ & Hone).
  split; [|split].
  - apply (bool_decide_unpack _). reflexivity.
  - rewrite Heq. reflexivity.
  - apply Hone; [reflexivity | vm_compute; lia].
Defined.

(** C7 as stated fails when the backend itself reports a tag twice: with a
    kern table and a backend that reports the kerning tag twice, the result
    has a duplicate and has the kerning tag twice. *)
Lemma getAvailableFeatures_duplicate :
  let tags := getAvailableFeatures
                (Sample.this true
                   (Some (Sample.backend None None false ["kern"; "kern"]%string)))
                None None in
  tags = ["kern"; "kern"]%string /\ ~ NoDup tags /\ countTag "kern" tags <> 1%nat.
Proof.
  cbv zeta. split; [reflexivity|]. split.
  - intros H. change (NoDup ["kern"; "kern"]%string) in H.
    apply NoDup_cons in H as [H _]. apply H. by left.
  - vm_compute. lia.
Qed.

(** ** The default-ignorable filter *)

(** The loop from index [k] on: below [k] the arrays stay as they are now, from
    [k] on every entry is treated as the step treats it. *)
Lemma hideDefaultIgnorables_loop_spec (space : Glyph.t) (m : nat) :
  forall (k : nat) (gs : list GlyphInfo.t) (ps : list GlyphPosition.t),
    length ps = length gs ->
    (k + m)%nat = length gs ->
    exists gs' ps',
      hideDefaultIgnorables_loop space (seq k m) (gs, Some ps) = Normal (gs', Some ps')
      /\ length gs' = length gs /\ length ps' = length ps
      /\ forall (i : nat) g p, gs !! i = Some g -> ps !! i = Some p ->
           if (k <=? i)%nat && firstCodePointIgnorable g
           then gs' !! i = Some (GlyphInfo.set_id (Glyph.id space) g)
                /\ ps' !! i = Some (GlyphPosition.zero_advance p)
           else gs' !! i = Some g /\ ps' !! i = Some p.
Proof.
  induction m as [|m IH]; intros k gs ps Hlen Hk; cbn [seq hideDefaultIgnorables_loop].
  - exists gs, ps. split; [done|]. split; [done|]. split; [done|].
    intros i g p Hg Hp. pose proof (lookup_lt_Some _ _ _ Hg).
    rewrite (proj2 (Nat.leb_gt k i)) by lia. done.
  - unfold hideDefaultIgnorables_step.
    destruct (lookup_lt_is_Some_2 gs k ltac:(lia)) as [gk Hgk].
    destruct (lookup_lt_is_Some_2 ps k ltac:(lia)) as [pk Hpk].
    rewrite Hgk. destruct (firstCodePointIgnorable gk) eqn:Hign.
    + rewrite Hpk.
      destruct (IH (S k) (<[k := GlyphInfo.set_id (Glyph.id space) gk]> gs)
                  (<[k := GlyphPosition.zero_advance pk]> ps))
        as (gs' & ps' & Hrun & Hlg & Hlp & Hpt).
      { by rewrite !length_insert. }
      { rewrite length_insert. lia. }
      exists gs', ps'. rewrite Hrun. rewrite !length_insert in *.
      split; [done|]. split; [done|]. split; [done|].
      intros i g p Hg Hp. destruct (decide (i = k)) as [->|Hne].
      * assert (g = gk) as -> by congruence. assert (p = pk) as -> by congruence.
        rewrite Nat.leb_refl, Hign. cbn [andb].
        specialize (Hpt k (GlyphInfo.set_id (Glyph.id space) gk)
                        (GlyphPosition.zero_advance pk)).
        rewrite !list_lookup_insert_eq in Hpt by lia.
        rewrite (proj2 (Nat.leb_gt (S k) k)) in Hpt by lia. by apply Hpt.
      * specialize (Hpt i g p).
        rewrite !list_lookup_insert_ne in Hpt by done.
        specialize (Hpt Hg Hp).
        destruct (Nat.leb_spec k i) as [Hki|Hki].
        -- rewrite (proj2 (Nat.leb_le (S k) i)) in Hpt by lia. done.
        -- rewrite (proj2 (Nat.leb_gt (S k) i)) in Hpt by lia. done.
    + destruct (IH (S k) gs ps Hlen ltac:(lia)) as (gs' & ps' & Hrun & Hlg & Hlp & Hpt).
      exists gs', ps'. rewrite Hrun.
      split; [done|]. split; [done|]. split; [done|].
      intros i g p Hg Hp. specialize (Hpt i g p Hg Hp).
      destruct (decide (i = k)) as [->|Hne].
      * assert (g = gk) as -> by congruence. rewrite Hign, andb_false_r.
        rewrite (proj2 (Nat.leb_gt (S k) k)) in Hpt by lia. done.
      * destruct (Nat.leb_spec k i) as [Hki|Hki].
        -- rewrite (proj2 (Nat.leb_le (S k) i)) in Hpt by lia. done.
        -- rewrite (proj2 (Nat.leb_gt (S k) i)) in Hpt by lia. done.
Qed.

(** On aligned arrays the pass completes and leaves them aligned. *)
Lemma hideDefaultIgnorables_aligned (font : Font.t) (glyphs : list GlyphInfo.t)
    (positions : list GlyphPosition.t) :
  length positions = length glyphs ->
  exists glyphs' positions',
    hideDefaultIgnorables font glyphs (Some positions) = Normal (glyphs', Some positions')
    /\ length glyphs' = length glyphs /\ length positions' = length positions.
Proof.
  intros Hlen. unfold hideDefaultIgnorables.
  destruct (hideDefaultIgnorables_loop_spec (Font.glyphForCodePoint font 0x20)
              (length glyphs) 0 glyphs positions Hlen eq_refl)
    as (gs' & ps' & Hrun & Hlg & Hlp & _).
  by exists gs', ps'.
Qed.

(** C8. On a glyph array and a position array of one length (as the position
    phase leaves them) the hiding pass completes, and at every index: if the
    first codepoint of the glyph is default-ignorable, the glyph's id becomes
    the id of the font's glyph for U+0020 and the x and y advance become 0,
    while the glyph's codepoints and source offset and the position's x and y
    offset stay; otherwise glyph and position are what they were. *)
Theorem hideDefaultIgnorables_frame (font : Font.t) (glyphs : list GlyphInfo.t)
    (positions : list GlyphPosition.t) :
  length positions = length glyphs ->
  exists glyphs' positions',
    hideDefaultIgnorables font glyphs (Some positions) = Normal (glyphs', Some positions')
    /\ length glyphs' = length glyphs /\ length positions' = length positions
    /\ forall (i : nat) g p, glyphs !! i = Some g -> positions !! i = Some p ->
         exists g' p', glyphs' !! i = Some g' /\ positions' !! i = Some p'
           /\ if firstCodePointIgnorable g
              then GlyphInfo.id g' = Glyph.id (Font.glyphForCodePoint font 0x20)
                   /\ GlyphInfo.codePoints g' = GlyphInfo.codePoints g
                   /\ GlyphInfo.stringIndex g' = GlyphInfo.stringIndex g
                   /\ GlyphPosition.xAdvance p' = 0 /\ GlyphPosition.yAdvance p' = 0
                   /\ GlyphPosition.xOffset p' = GlyphPosition.xOffset p
                   /\ GlyphPosition.yOffset p' = GlyphPosition.yOffset p
              else g' = g /\ p' = p.
Proof.
  intros Hlen. unfold hideDefaultIgnorables.
  destruct (hideDefaultIgnorables_loop_spec (Font.glyphForCodePoint font 0x20)
              (length glyphs) 0 glyphs positions Hlen eq_refl)
    as (gs' & ps' & Hrun & Hlg & Hlp & Hpt).
  exists gs', ps'. split; [done|]. split; [done|]. split; [done|].
  intros i g p Hg Hp. specialize (Hpt i g p Hg Hp). cbn [Nat.leb andb] in Hpt.
  destruct (firstCodePointIgnorable g); destruct Hpt as [Hg' Hp'];
    eexists _, _; (split; [exact Hg'|]); (split; [exact Hp'|]); done.
Qed.

Lemma hideDefaultIgnorables_frame_witness :
  let glyphs := [GlyphInfo.mk 0x61 [0x61] 0; GlyphInfo.mk 0xAD [0xAD] 1] in
  let positions := [GlyphPosition.mk 600 0 3 4; GlyphPosition.mk 500 7 5 6] in
  length positions = length glyphs
  /\ hideDefaultIgnorables (Sample.font false) glyphs (Some positions)
     = Normal ([GlyphInfo.mk 0x61 [0x61] 0; GlyphInfo.mk 0x20 [0xAD] 1],
               Some [GlyphPosition.mk 600 0 3 4; GlyphPosition.mk 0 0 5 6])
  /\ exists glyphs' positions',
       hideDefaultIgnorables (Sample.font false) glyphs (Some positions)
       = Normal (glyphs', Some positions')
       /\ length glyphs' = length glyphs /\ length positions' = length positions
       /\ forall (i : nat) g p, glyphs !! i = Some g -> positions !! i = Some p ->
            exists g' p', glyphs' !! i = Some g' /\ positions' !! i = Some p'
              /\ if firstCodePointIgnorable g
                 then GlyphInfo.id g'
                      = Glyph.id (Font.glyphForCodePoint (Sample.font false) 0x20)
                      /\ GlyphInfo.codePoints g' = GlyphInfo.codePoints g
                      /\ GlyphInfo.stringIndex g' = GlyphInfo.stringIndex g
                      /\ GlyphPosition.xAdvance p' = 0 /\ GlyphPosition.yAdvance p' = 0
                      /\ GlyphPosition.xOffset p' = GlyphPosition.xOffset p
                      /\ GlyphPosition.yOffset p' = GlyphPosition.yOffset p
                 else g' = g /\ p' = p.
Proof.
  intros glyphs positions. split; [reflexivity|]. split; [reflexivity|].
  apply hideDefaultIgnorables_frame. reflexivity.
Defined.

(** ** The phases *)

(** Running a bind whose first part completes normally. *)
Lemma bind_normal {A A'} (m : M A) (f : A -> M A') (this this1 : LayoutEngine)
    (a : A) (calls1 : list Call) :
  m this = (Normal a, this1, calls1) ->
  (m ≫= f) this = let '(c, this2, calls2) := f a this1 in (c, this2, calls1 ++ calls2).
Proof. intros H. unfold mbind, M_bind. by rewrite H. Qed.

Lemma sameEngine_refl (this : LayoutEngine) : sameEngine this this.
Proof.
  split; [done|]. destruct (engine this) as [e|]; [|done].
  exists (Backend.state e). by destruct e.
Qed.

Lemma sameEngine_trans (this1 this2 this3 : LayoutEngine) :
  sameEngine this1 this2 -> sameEngine this2 this3 -> sameEngine this1 this3.
Proof.
  intros [Hf1 He1] [Hf2 He2]. split; [congruence|].
  destruct (engine this1) as [e1|], (engine this2) as [e2|], (engine this3) as [e3|];
    try done.
  destruct He1 as [b1 ->], He2 as [b2 ->]. by exists b2.
Qed.

Lemma sameEngine_step (this : LayoutEngine) (e : Backend.t) (b : Backend.B e) :
  engine this = Some e ->
  sameEngine this (set_engine (Some (Backend.with_state e b)) this).
Proof. intros He. split; [done|]. rewrite He. cbn. by exists b. Qed.

Lemma backendCalls_quiet (calls : list Call) :
  Forall (fun c => isBackendCall c = true) calls ->
  kernProcessorRan calls = false /\ markPositionerRan calls = false.
Proof.
  unfold kernProcessorRan, markPositionerRan.
  induction 1 as [|c calls Hc _ [IH1 IH2]]; [done|].
  cbn. rewrite IH1, IH2. by destruct c.
Qed.

Lemma setup_spec (glyphRun : Run) (this : LayoutEngine) :
  exists glyphRun' this' calls,
    setup glyphRun this = (Normal glyphRun', this', calls)
    /\ sameEngine this this' /\ Forall (fun c => isBackendCall c = true) calls.
Proof.
  unfold setup, mbind, M_bind, getThis. cbn.
  destruct (engine this) as [e|] eqn:He; [destruct (Backend.setup e) as [f|] |].
  - destruct (f (Backend.state e) glyphRun) as [b r]. cbn.
    eexists _, _, _. split; [done|]. split; [by apply sameEngine_step|].
    by repeat constructor.
  - eexists _, _, _. split; [done|]. split; [apply sameEngine_refl | constructor].
  - eexists _, _, _. split; [done|]. split; [apply sameEngine_refl | constructor].
Qed.

Lemma substitute_spec (glyphRun : Run) (this : LayoutEngine) :
  exists glyphRun' this' calls,
    substitute glyphRun this = (Normal glyphRun', this', calls)
    /\ sameEngine this this' /\ Forall (fun c => isBackendCall c = true) calls.
Proof.
  unfold substitute, mbind, M_bind, getThis. cbn.
  destruct (engine this) as [e|] eqn:He; [destruct (Backend.substitute e) as [f|] |].
  - destruct (f (Backend.state e) glyphRun) as [b r]. cbn.
    eexists _, _, _. split; [done|]. split; [by apply sameEngine_step|].
    by repeat constructor.
  - eexists _, _, _. split; [done|]. split; [apply sameEngine_refl | constructor].
  - eexists _, _, _. split; [done|]. split; [apply sameEngine_refl | constructor].
Qed.

(** The backend's [position] answers nothing when the backend, or the
    operation, is absent; and it keeps the arrays aligned when the backend
    keeps its contract. *)
Lemma position_backend_spec (glyphRun : Run) (this : LayoutEngine) :
  exists glyphRun' positioned this' calls,
    position_backend glyphRun this = (Normal (glyphRun', positioned), this', calls)
    /\ sameEngine this this' /\ Forall (fun c => isBackendCall c = true) calls
    /\ ((forall e, engine this = Some e -> backendKeepsLengths e) -> aligned glyphRun').
Proof.
  unfold position_backend, mbind, M_bind, getThis. cbn.
  set (r0 := GlyphRun.set_positions _ glyphRun).
  assert (aligned r0) as Hr0.
  { eexists. split; [done|]. by rewrite length_map. }
  destruct (engine this) as [e|] eqn:He; [destruct (Backend.position e) as [f|] eqn:Hf |].
  - destruct (f (Backend.state e) r0) as [[b r] positioned] eqn:Hrun. cbn.
    eexists _, _, _, _. split; [done|]. split; [by apply sameEngine_step|].
    split; [by repeat constructor|].
    intros Hkeep. specialize (Hkeep e eq_refl f Hf (Backend.state e) r0 Hr0).
    by rewrite Hrun in Hkeep.
  - eexists _, _, _, _. split; [done|]. split; [apply sameEngine_refl|].
    split; [constructor | done].
  - eexists _, _, _, _. split; [done|]. split; [apply sameEngine_refl|].
    split; [constructor | done].
Qed.

Lemma cleanup_spec (this : LayoutEngine) :
  exists this' calls,
    cleanup this = (Normal tt, this', calls)
    /\ sameEngine this this' /\ Forall (fun c => isBackendCall c = true) calls.
Proof.
  unfold cleanup, mbind, M_bind, getThis. cbn.
  destruct (engine this) as [e|] eqn:He; [destruct (Backend.cleanup e) as [f|] |].
  - eexists _, _. split; [done|]. split; [by apply sameEngine_step|].
    by repeat constructor.
  - eexists _, _. split; [done|]. split; [apply sameEngine_refl | constructor].
  - eexists _, _. split; [done|]. split; [apply sameEngine_refl | constructor].
Qed.

Lemma backendKeepsLengths_sameEngine (this this' : LayoutEngine) :
  sameEngine this this' ->
  (forall e, engine this = Some e -> backendKeepsLengths e) ->
  forall e', engine this' = Some e' -> backendKeepsLengths e'.
Proof.
  intros [_ He] Hkeep e' He'. rewrite He' in He.
  destruct (engine this) as [e|]; [|done]. destruct He as [b ->].
  exact (Hkeep e eq_refl).
Qed.

Lemma bind_assoc {A A' A''} (m : M A) (h : A -> M A') (g : A' -> M A'')
    (this : LayoutEngine) :
  ((m ≫= h) ≫= g) this = (m ≫= (fun a => h a ≫= g)) this.
Proof.
  unfold mbind, M_bind.
  destruct (m this) as [[[a|e] this1] calls1]; [|done].
  destruct (h a this1) as [[[a'|e] this2] calls2]; [|done].
  destruct (g a' this2) as [[c this3] calls3]. by rewrite app_assoc.
Qed.

Lemma layout_run_glyphs (env : Env) (font : Font.t) (string : list Z)
    (features : FeaturesArg) (script language direction : option Tag) :
  GlyphRun.glyphs (layout_run env font string features script language direction)
  = glyphsForString font string.
Proof. unfold layout_run. by destruct features. Qed.

(** The call reaches the fallback gates without an exception, having called
    nothing but the backend. *)
Lemma layout_positioned_spec (env : Env) (string : list Z) (features : FeaturesArg)
    (script language direction : option Tag) (this : LayoutEngine) :
  exists glyphRun positioned this1 calls1,
    layout_positioned env string features script language direction this
    = (Normal (glyphRun, positioned), this1, calls1)
    /\ sameEngine this this1
    /\ Forall (fun c => isBackendCall c = true) calls1
    /\ ((forall e, engine this = Some e -> backendKeepsLengths e) -> aligned glyphRun).
Proof.
  unfold layout_positioned.
  rewrite (bind_normal getThis _ this this this [] eq_refl). cbn beta.
  set (r0 := layout_run _ _ _ _ _ _ _).
  destruct (setup_spec r0 this) as (r1 & this1 & c1 & Hs & Hs1 & Hs2).
  destruct (substitute_spec r1 this1) as (r2 & this2 & c2 & Hsub & Hsub1 & Hsub2).
  destruct (position_backend_spec r2 this2)
    as (r3 & positioned & this3 & c3 & Hp & Hp1 & Hp2 & Hp3).
  rewrite (bind_normal _ _ _ _ _ _ Hs), (bind_normal _ _ _ _ _ _ Hsub), Hp.
  eexists _, _, _, _. split; [done|].
  split; [eauto using sameEngine_trans|].
  split; [cbn; by rewrite !Forall_app|].
  intros Hkeep. apply Hp3.
  eapply backendKeepsLengths_sameEngine; [|exact Hkeep].
  eauto using sameEngine_trans.
Qed.

(** When the builder emits a unit, [layout] is the call up to the gates
    followed by the rest. *)
Lemma layout_split (env : Env) (string : list Z) (features : FeaturesArg)
    (script language direction : option Tag) (this this1 : LayoutEngine)
    (glyphRun : Run) (positioned : option (gmap Tag bool)) (calls1 : list Call) :
  glyphsForString (font this) string <> [] ->
  layout_positioned env string features script language direction this
  = (Normal (glyphRun, positioned), this1, calls1) ->
  layout env string features script language direction this
  = let '(c, this2, calls2) := layout_finish env positioned glyphRun this1 in
    (c, this2, calls1 ++ calls2).
Proof.
  intros Hne Hpos.
  destruct (layout_positioned_spec env string features script language direction this)
    as (r' & p' & this1' & c1' & Hpos' & [Hfont _] & _).
  rewrite Hpos in Hpos'. injection Hpos' as <- <- <- <-.
  revert Hpos. unfold layout, layout_positioned.
  rewrite !(bind_normal getThis _ this this this [] eq_refl). cbn beta.
  rewrite layout_run_glyphs.
  destruct (glyphsForString (font this) string) as [|g gs] eqn:Hg; [done|].
  set (r0 := layout_run _ _ _ _ _ _ _).
  destruct (setup_spec r0 this) as (r1 & this1' & c1 & Hs & _).
  destruct (substitute_spec r1 this1') as (r2 & this2 & c2 & Hsub & _).
  destruct (position_backend_spec r2 this2) as (r3 & p3 & this3 & c3 & Hp & _).
  rewrite !(bind_normal _ _ _ _ _ _ Hs), !(bind_normal _ _ _ _ _ _ Hsub), Hp.
  intros [= <- <- <- <-].
  unfold position. rewrite bind_assoc, (bind_normal _ _ _ _ _ _ Hp). cbn beta iota.
  rewrite !bind_assoc.
  unfold layout_finish.
  rewrite (bind_normal getThis _ this3 this3 this3 [] eq_refl). cbn beta.
  rewrite Hfont.
  destruct ((position_marks env p3 r3 ≫= _) this3) as [[c this4] c4].
  cbn. by rewrite !app_assoc.
Qed.

(** A positioner that keeps its contract leaves an aligned run aligned. *)
Lemma aligned_set_arrays
    (f : list GlyphInfo.t -> option (list GlyphPosition.t)
         -> list GlyphInfo.t * option (list GlyphPosition.t))
    (glyphRun : Run) :
  keepsLengths f -> aligned glyphRun ->
  aligned (GlyphRun.set_arrays
             (f (GlyphRun.glyphs glyphRun) (GlyphRun.positions glyphRun)).1
             (f (GlyphRun.glyphs glyphRun) (GlyphRun.positions glyphRun)).2
             glyphRun).
Proof.
  intros Hf (ps & Hps & Hlen). rewrite Hps.
  destruct (Hf _ _ Hlen) as (gs' & ps' & -> & Hlen'). by exists ps'.
Qed.

(** Backends that keep the kerning toggle hand the caller's setting on to
    the gate. *)
Lemma backendKeepsKern_sameEngine (this this' : LayoutEngine) :
  sameEngine this this' ->
  (forall e, engine this = Some e -> backendKeepsKern e) ->
  forall e', engine this' = Some e' -> backendKeepsKern e'.
Proof.
  intros [_ He] Hkeep e' He'. rewrite He' in He.
  destruct (engine this) as [e|]; [|done]. destruct He as [b ->].
  exact (Hkeep e eq_refl).
Qed.

Lemma setup_kern (glyphRun glyphRun' : Run) (this this' : LayoutEngine)
    (calls : list Call) :
  (forall e, engine this = Some e -> backendKeepsKern e) ->
  setup glyphRun this = (Normal glyphRun', this', calls) ->
  kernDisabled glyphRun' <-> kernDisabled glyphRun.
Proof.
  intros Hkeep. unfold setup, mbind, M_bind, getThis. cbn.
  destruct (engine this) as [e|] eqn:He; [destruct (Backend.setup e) as [f|] eqn:Hf |].
  - destruct (Hkeep e eq_refl) as (Hsetup & _).
    specialize (Hsetup f Hf (Backend.state e) glyphRun).
    destruct (f (Backend.state e) glyphRun) as [b r]. cbn. by intros [= <- _ _].
  - by intros [= <- _ _].
  - by intros [= <- _ _].
Qed.

Lemma substitute_kern (glyphRun glyphRun' : Run) (this this' : LayoutEngine)
    (calls : list Call) :
  (forall e, engine this = Some e -> backendKeepsKern e) ->
  substitute glyphRun this = (Normal glyphRun', this', calls) ->
  kernDisabled glyphRun' <-> kernDisabled glyphRun.
Proof.
  intros Hkeep. unfold substitute, mbind, M_bind, getThis. cbn.
  destruct (engine this) as [e|] eqn:He;
    [destruct (Backend.substitute e) as [f|] eqn:Hf |].
  - destruct (Hkeep e eq_refl) as (_ & Hsub & _).
    specialize (Hsub f Hf (Backend.state e) glyphRun).
    destruct (f (Backend.state e) glyphRun) as [b r]. cbn. by intros [= <- _ _].
  - by intros [= <- _ _].
  - by intros [= <- _ _].
Qed.

Lemma position_backend_kern (glyphRun glyphRun' : Run) (this this' : LayoutEngine)
    (positioned : option (gmap Tag bool)) (calls : list Call) :
  (forall e, engine this = Some e -> backendKeepsKern e) ->
  position_backend glyphRun this = (Normal (glyphRun', positioned), this', calls) ->
  kernDisabled glyphRun' <-> kernDisabled glyphRun.
Proof.
  intros Hkeep. unfold position_backend, mbind, M_bind, getThis. cbn.
  set (r0 := GlyphRun.set_positions _ glyphRun).
  destruct (engine this) as [e|] eqn:He;
    [destruct (Backend.position e) as [f|] eqn:Hf |].
  - destruct (Hkeep e eq_refl) as (_ & _ & Hpos).
    specialize (Hpos f Hf (Backend.state e) r0).
    destruct (f (Backend.state e) r0) as [[b r] p]. cbn. by intros [= <- _ _ _].
  - by intros [= <- _ _ _].
  - by intros [= <- _ _ _].
Qed.

Lemma layout_positioned_kern (env : Env) (string : list Z) (features : FeaturesArg)
    (script language direction : option Tag) (this this1 : LayoutEngine)
    (glyphRun : Run) (positioned : option (gmap Tag bool)) (calls1 : list Call) :
  (forall e, engine this = Some e -> backendKeepsKern e) ->
  layout_positioned env string features script language direction this
  = (Normal (glyphRun, positioned), this1, calls1) ->
  kernDisabled glyphRun
  <-> kernDisabled (layout_run env (font this) string features script language direction).
Proof.
  intros Hkeep. unfold layout_positioned.
  rewrite (bind_normal getThis _ this this this [] eq_refl). cbn beta.
  set (r0 := layout_run _ _ _ _ _ _ _).
  destruct (setup_spec r0 this) as (r1 & this1' & c1 & Hs & Hs1 & _).
  destruct (substitute_spec r1 this1') as (r2 & this2 & c2 & Hsub & Hsub1 & _).
  destruct (position_backend_spec r2 this2) as (r3 & p3 & this3 & c3 & Hp & _).
  rewrite (bind_normal _ _ _ _ _ _ Hs), (bind_normal _ _ _ _ _ _ Hsub), Hp.
  intros [= <- _ _ _].
  rewrite (position_backend_kern _ _ _ _ _ _
             (backendKeepsKern_sameEngine _ _
                (sameEngine_trans _ _ _ Hs1 Hsub1) Hkeep) Hp).
  rewrite (substitute_kern _ _ _ _ _
             (backendKeepsKern_sameEngine _ _ Hs1 Hkeep) Hsub).
  exact (setup_kern _ _ _ _ _ Hkeep Hs).
Qed.

(** The two gates, as the engine evaluates them. *)
Lemma position_marks_run (env : Env) (positioned : option (gmap Tag bool))
    (glyphRun : Run) (this : LayoutEngine) :
  position_marks env positioned glyphRun this
  = if negb (bool_decide (is_Some positioned)) && wantsFallback this then
      let u := match unicodeLayoutEngine this with
               | Some u => u
               | None => {| ule_font := font this |}
               end in
      let arrays := positionGlyphs env u (GlyphRun.glyphs glyphRun)
                                   (GlyphRun.positions glyphRun) in
      (Normal (GlyphRun.set_arrays arrays.1 arrays.2 glyphRun),
       set_unicodeLayoutEngine (Some u) this,
       [CallPositionGlyphs (GlyphRun.glyphs glyphRun) (GlyphRun.positions glyphRun)])
    else (Normal glyphRun, this, []).
Proof.
  unfold position_marks, wantsFallback, mbind, M_bind, getThis. cbn.
  destruct (_ && _); [|done]. cbn. by destruct (positionGlyphs _ _ _ _).
Qed.

Lemma position_kern_run (env : Env) (positioned : option (gmap Tag bool))
    (glyphRun : Run) (this : LayoutEngine) :
  position_kern env positioned glyphRun this
  = if negb (positioned_kern positioned)
       && negb (bool_decide (GlyphRun.features glyphRun !! "kern"%string = Some false))
       && Font.kern (font this) then
      let k := match kernProcessor this with
               | Some k => k
               | None => {| kp_font := font this |}
               end in
      let arrays := process env k (GlyphRun.glyphs glyphRun)
                            (GlyphRun.positions glyphRun) in
      (Normal (GlyphRun.set_features
                 (<[ "kern"%string := true ]> (GlyphRun.features glyphRun))
                 (GlyphRun.set_arrays arrays.1 arrays.2 glyphRun)),
       set_kernProcessor (Some k) this,
       [CallProcess (GlyphRun.glyphs glyphRun) (GlyphRun.positions glyphRun)])
    else (Normal glyphRun, this, []).
Proof.
  unfold position_kern, mbind, M_bind, getThis. cbn.
  destruct (_ && _); [|done]. cbn. by destruct (process _ _ _ _).
Qed.

(** What the rest of the call does, gate by gate. *)
Lemma layout_finish_spec (env : Env) (positioned : option (gmap Tag bool))
    (glyphRun : Run) (this : LayoutEngine) :
  let marks := negb (bool_decide (is_Some positioned)) && wantsFallback this in
  let kern :=
    negb (positioned_kern positioned)
    && negb (bool_decide (GlyphRun.features glyphRun !! "kern"%string = Some false))
    && Font.kern (font this) in
  exists c this' calls,
    layout_finish env positioned glyphRun this = (c, this', calls)
    /\ markPositionerRan calls = marks
    /\ kernProcessorRan calls = kern
    /\ (marks = true ->
        CallPositionGlyphs (GlyphRun.glyphs glyphRun) (GlyphRun.positions glyphRun)
        ∈ calls)
    /\ (forall r, c = Normal r ->
        GlyphRun.features r
        = if kern then <[ "kern"%string := true ]> (GlyphRun.features glyphRun)
          else GlyphRun.features glyphRun)
    /\ (aligned glyphRun ->
        (forall u, keepsLengths (positionGlyphs env u)) ->
        (forall k, keepsLengths (process env k)) ->
        exists r ps ix, c = Normal r
          /\ GlyphRun.positions r = Some ps /\ GlyphRun.stringIndices r = Some ix
          /\ length (GlyphRun.glyphs r) = length ps /\ length ps = length ix).
Proof.
  intros marks kern. unfold layout_finish.
  rewrite (bind_normal getThis _ this this this [] eq_refl). cbn beta.
  pose proof (position_marks_run env positioned glyphRun this) as Hm.
  cbn zeta in Hm. fold marks in Hm.
  set (u := match unicodeLayoutEngine this with Some u => u | None => _ end) in Hm.
  set (a1 := positionGlyphs env u _ _) in Hm.
  set (r1 := if marks then GlyphRun.set_arrays a1.1 a1.2 glyphRun else glyphRun).
  set (this1 := if marks then set_unicodeLayoutEngine (Some u) this else this).
  set (c1 := if marks
             then [CallPositionGlyphs (GlyphRun.glyphs glyphRun)
                                      (GlyphRun.positions glyphRun)]
             else []).
  assert (position_marks env positioned glyphRun this = (Normal r1, this1, c1)) as Hm'.
  { rewrite Hm. unfold r1, this1, c1. by destruct marks. }
  assert (GlyphRun.features r1 = GlyphRun.features glyphRun) as Hf1
    by (unfold r1; by destruct marks).
  assert (font this1 = font this) as Hfont1 by (unfold this1; by destruct marks).
  assert (kernProcessor this1 = kernProcessor this) as Hkp1
    by (unfold this1; by destruct marks).
  pose proof (position_kern_run env positioned r1 this1) as Hk.
  cbn zeta in Hk. rewrite Hf1, Hfont1, Hkp1 in Hk. fold kern in Hk.
  set (k := match kernProcessor this with Some k => k | None => _ end) in Hk.
  set (a2 := process env k _ _) in Hk.
  set (r2 := if kern
             then GlyphRun.set_features
                    (<[ "kern"%string := true ]> (GlyphRun.features glyphRun))
                    (GlyphRun.set_arrays a2.1 a2.2 r1)
             else r1).
  set (this2 := if kern then set_kernProcessor (Some k) this1 else this1).
  set (c2 := if kern
             then [CallProcess (GlyphRun.glyphs r1) (GlyphRun.positions r1)] else []).
  assert (position_kern env positioned r1 this1 = (Normal r2, this2, c2)) as Hk'.
  { rewrite Hk. unfold r2, this2, c2. by destruct kern. }
  assert (GlyphRun.features r2
          = if kern then <[ "kern"%string := true ]> (GlyphRun.features glyphRun)
            else GlyphRun.features glyphRun) as Hf2
    by (unfold r2; by destruct kern).
  rewrite (bind_normal _ _ _ _ _ _ Hm'), (bind_normal _ _ _ _ _ _ Hk').
  destruct (cleanup_spec this2) as (this3 & c3 & Hc & _ & Hc3).
  apply backendCalls_quiet in Hc3 as [Hc3k Hc3m].
  assert (markPositionerRan c1 = marks /\ kernProcessorRan c1 = false) as [Hc1m Hc1k]
    by (unfold c1; by destruct marks).
  assert (markPositionerRan c2 = false /\ kernProcessorRan c2 = kern) as [Hc2m Hc2k]
    by (unfold c2; by destruct kern).
  assert (aligned glyphRun ->
          (forall u, keepsLengths (positionGlyphs env u)) ->
          (forall k, keepsLengths (process env k)) ->
          exists gs' ps',
            hideDefaultIgnorables (font this) (GlyphRun.glyphs r2) (GlyphRun.positions r2)
            = Normal (gs', Some ps')
            /\ length ps' = length gs') as Hhide'.
  { intros Hal Hule Hkp.
    assert (aligned r1) as Hal1.
    { unfold r1. destruct marks; [|done]. by apply aligned_set_arrays. }
    assert (aligned r2) as (ps2 & Hps2 & Hlen2).
    { unfold r2. destruct kern; [|done].
      destruct (aligned_set_arrays (process env k) r1 (Hkp k) Hal1) as (ps & ? & ?).
      by exists ps. }
    rewrite Hps2.
    destruct (hideDefaultIgnorables_aligned (font this) (GlyphRun.glyphs r2) ps2 Hlen2)
      as (gs' & ps' & -> & Hlg & Hlp).
    exists gs', ps'. split; [done | congruence]. }
  unfold mbind at 1, M_bind at 1, complete.
  destruct (hideDefaultIgnorables (font this) (GlyphRun.glyphs r2) (GlyphRun.positions r2))
    as [[gs ps]|e] eqn:Hhide.
  - rewrite (bind_normal _ _ _ _ _ _ Hc). cbn.
    eexists _, _, _. split; [done|].
    unfold markPositionerRan, kernProcessorRan in *.
    rewrite !existsb_app, Hc1m, Hc1k, Hc2m, Hc2k, Hc3m, Hc3k, !app_nil_r. cbn.
    rewrite !orb_false_r.
    split; [done|]. split; [done|]. split.
    { intros Hmarks. unfold c1. rewrite Hmarks. set_solver. }
    split.
    { by intros r [= <-]. }
    intros Hal Hule Hkp.
    destruct (Hhide' Hal Hule Hkp) as (gs' & ps' & [= -> ->] & Hlen).
    eexists _, ps', _. split; [done|]. cbn. split; [done|]. split; [done|].
    by rewrite !length_map.
  - cbn. eexists _, _, _. split; [done|].
    unfold markPositionerRan, kernProcessorRan in *.
    rewrite !existsb_app, Hc1m, Hc1k, Hc2m, Hc2k, !app_nil_r. cbn.
    rewrite !orb_false_r.
    split; [done|]. split; [done|]. split.
    { intros Hmarks. unfold c1. rewrite Hmarks. set_solver. }
    split; [done|].
    intros Hal Hule Hkp.
    by destruct (Hhide' Hal Hule Hkp) as (gs' & ps' & [=] & _).
Qed.

(** ** The layout call *)

(** C9. On the empty string the builder returns no unit, and [layout]
    returns at once a run with an empty glyph array and an empty position
    array: the engine object is untouched and no call is made to a backend
    phase, nor to any other collaborator. *)
Theorem layout_empty_string (env : Env) (features : FeaturesArg)
    (script language direction : option Tag) (this : LayoutEngine) :
  glyphsForString (font this) [] = []
  /\ exists r,
       layout env [] features script language direction this = (Normal r, this, [])
       /\ GlyphRun.glyphs r = [] /\ GlyphRun.positions r = Some [].
Proof.
  split; [reflexivity|].
  unfold layout. rewrite (bind_normal getThis _ this this this [] eq_refl). cbn beta.
  rewrite layout_run_glyphs. change (glyphsForString (font this) []) with (@nil GlyphInfo.t).
  cbn. eexists. split; [reflexivity|]. by split.
Qed.

(** C1 (amended). Take a layout call for which the builder emits at least one
    unit, and let [positioned] be what the backend's [position] reported
    (nothing when there is no backend or no such operation) and [glyphRun]
    the run as the backend phases left it. The Legacy Kern Processor runs if
    and only if [positioned] does not hold the kerning tag, the run's kerning
    toggle is not [false], and the font has a legacy kern table. The toggle
    is [false] at the gate exactly when it was in the run built from the
    caller's features, for a backend whose phases leave that as it is. When
    the processor runs, the returned run has its kerning toggle set to
    [true]; when the backend reported kerning it does not run, kern table or
    not. *)
Theorem layout_kern_gate (env : Env) (string : list Z) (features : FeaturesArg)
    (script language direction : option Tag) (this : LayoutEngine) :
  glyphsForString (font this) string <> [] ->
  exists glyphRun positioned this1 calls1 c this2 calls,
    layout_positioned env string features script language direction this
    = (Normal (glyphRun, positioned), this1, calls1)
    /\ layout env string features script language direction this = (c, this2, calls)
    /\ (kernProcessorRan calls = true <->
        positioned_kern positioned = false
        /\ ~ kernDisabled glyphRun
        /\ Font.kern (font this) = true)
    /\ ((forall e, engine this = Some e -> backendKeepsKern e) ->
        (kernDisabled glyphRun <->
         kernDisabled (layout_run env (font this) string features
                                  script language direction)))
    /\ (kernProcessorRan calls = true ->
        forall r, c = Normal r -> GlyphRun.features r !! "kern"%string = Some true)
    /\ (positioned_kern positioned = true -> kernProcessorRan calls = false).
Proof.
  intros Hne.
  destruct (layout_positioned_spec env string features script language direction this)
    as (glyphRun & positioned & this1 & calls1 & Hpos & [Hfont _] & Hcalls1 & _).
  destruct (layout_finish_spec env positioned glyphRun this1)
    as (c & this2 & calls2 & Hfin & _ & Hkern & _ & Hfeat & _).
  apply backendCalls_quiet in Hcalls1 as [Hq _].
  exists glyphRun, positioned, this1, calls1, c, this2, (calls1 ++ calls2).
  split; [done|]. split.
  { rewrite (layout_split _ _ _ _ _ _ _ _ _ _ _ Hne Hpos). by rewrite Hfin. }
  assert (kernProcessorRan (calls1 ++ calls2) = kernProcessorRan calls2) as ->.
  { unfold kernProcessorRan in *. by rewrite existsb_app, Hq. }
  rewrite Hkern, Hfont. split; [|split; [|split]].
  - unfold kernDisabled.
    rewrite !andb_true_iff, !negb_true_iff, bool_decide_eq_false. tauto.
  - intros Hkeep. by eapply layout_positioned_kern.
  - intros Hk r Hr. rewrite (Hfeat r Hr), Hfont, Hk.
    apply lookup_insert_eq.
  - intros ->. reflexivity.
Qed.

Lemma layout_kern_gate_witness :
  glyphsForString (font (Sample.this true None)) [0x61; 0x62] <> []
  /\ kernProcessorRan
       (layout Sample.env [0x61; 0x62] FeatUndefined None None None
               (Sample.this true None)).2 = true.
Proof.
  split; [discriminate|].
  destruct (layout_kern_gate Sample.env [0x61; 0x62] FeatUndefined None None None
              (Sample.this true None) ltac:(discriminate))
    as (glyphRun & positioned & this1 & calls1 & c & this2 & calls
        & Hpos & -> & Hiff & _).
  apply Hiff. injection Hpos as <- <- _ _. by vm_compute.
Defined.

(** C1 as stated fails on a string that is not empty and still yields no
    unit. For the string of the one selector U+FE0F, with no backend, no
    features given and a font with a kern table, all three conditions of the
    claim hold and the Legacy Kern Processor does not run: the call returns
    early. *)
Lemma layout_kern_gate_selector_only :
  let this := Sample.this true None in
  let string := [0xFE0F] in
  let result := layout Sample.env string FeatUndefined None None None this in
  string <> []
  /\ engine this = None
  /\ GlyphRun_features Sample.env FeatUndefined !! "kern"%string = None
  /\ Font.kern (font this) = true
  /\ kernProcessorRan result.2 = false.
Proof. cbv zeta. by repeat split. Qed.

(** C2 (amended). Take a layout call for which the builder emits at least one
    unit, and let [positioned] be what the backend's [position] reported and
    [this1] the engine after it. The Fallback Mark Positioner runs if and only
    if [positioned] is nothing (no backend, no [position] operation, or an
    operation that reports nothing) and either there is no backend or the
    backend declares that it wants supplementary positioning; it then runs on
    the run's glyph and position arrays. It does not run when the backend's
    [position] reported an applied feature set. *)
Theorem layout_marks_gate (env : Env) (string : list Z) (features : FeaturesArg)
    (script language direction : option Tag) (this : LayoutEngine) :
  glyphsForString (font this) string <> [] ->
  exists glyphRun positioned this1 calls1 c this2 calls,
    layout_positioned env string features script language direction this
    = (Normal (glyphRun, positioned), this1, calls1)
    /\ sameEngine this this1
    /\ layout env string features script language direction this = (c, this2, calls)
    /\ (markPositionerRan calls = true <->
        positioned = None /\ wantsFallback this1 = true)
    /\ (markPositionerRan calls = true ->
        CallPositionGlyphs (GlyphRun.glyphs glyphRun) (GlyphRun.positions glyphRun)
        ∈ calls)
    /\ (positioned <> None -> markPositionerRan calls = false).
Proof.
  intros Hne.
  destruct (layout_positioned_spec env string features script language direction this)
    as (glyphRun & positioned & this1 & calls1 & Hpos & Hsame & Hcalls1 & _).
  destruct (layout_finish_spec env positioned glyphRun this1)
    as (c & this2 & calls2 & Hfin & Hmarks & _ & Hargs & _).
  apply backendCalls_quiet in Hcalls1 as [_ Hq].
  exists glyphRun, positioned, this1, calls1, c, this2, (calls1 ++ calls2).
  split; [done|]. split; [done|]. split.
  { rewrite (layout_split _ _ _ _ _ _ _ _ _ _ _ Hne Hpos). by rewrite Hfin. }
  assert (markPositionerRan (calls1 ++ calls2) = markPositionerRan calls2) as ->.
  { unfold markPositionerRan in *. by rewrite existsb_app, Hq. }
  rewrite Hmarks. split; [|split].
  - rewrite andb_true_iff, negb_true_iff, bool_decide_eq_false.
    rewrite <- eq_None_not_Some. tauto.
  - intros Hm. apply elem_of_app. right. by apply Hargs.
  - intros Hp. destruct positioned; [|done].
    by rewrite bool_decide_eq_true_2.
Qed.

Lemma layout_marks_gate_witness :
  glyphsForString (font (Sample.this false None)) [0x61; 0x301] <> []
  /\ markPositionerRan
       (layout Sample.env [0x61; 0x301] FeatUndefined None None None
               (Sample.this false None)).2 = true.
Proof.
  split; [discriminate|].
  destruct (layout_marks_gate Sample.env [0x61; 0x301] FeatUndefined None None None
              (Sample.this false None) ltac:(discriminate))
    as (glyphRun & positioned & this1 & calls1 & c & this2 & calls
        & Hpos & _ & -> & Hiff & _).
  apply Hiff. injection Hpos as _ <- <- _. by vm_compute.
Defined.

(** C2 as stated fails for a backend that is there, has no [position]
    operation and does not declare that it wants supplementary positioning:
    on the string "a" the Fallback Mark Positioner does not run. *)
Lemma layout_marks_gate_backend_without_position :
  let e := Sample.backend None None false [] in
  let this := Sample.this false (Some e) in
  let string := [0x61] in
  let result := layout Sample.env string FeatUndefined None None None this in
  string <> []
  /\ Backend.position e = None
  /\ markPositionerRan result.2 = false.
Proof. cbv zeta. by repeat split. Qed.

(** X19. Take a layout call for which the builder emits at least one
    unit, with positioning collaborators that keep a glyph array and a
    position array of one length at one length. The call completes, and in
    the returned run the glyph array, the position array and the
    source-offset array have the same length, whatever the backend's
    [setup] and [substitute] did to the glyph array. *)
Theorem layout_lengths (env : Env) (string : list Z) (features : FeaturesArg)
    (script language direction : option Tag) (this : LayoutEngine) :
  glyphsForString (font this) string <> [] ->
  (forall e, engine this = Some e -> backendKeepsLengths e) ->
  (forall u, keepsLengths (positionGlyphs env u)) ->
  (forall k, keepsLengths (process env k)) ->
  exists r this' calls ps ix,
    layout env string features script language direction this = (Normal r, this', calls)
    /\ GlyphRun.positions r = Some ps /\ GlyphRun.stringIndices r = Some ix
    /\ length (GlyphRun.glyphs r) = length ps /\ length ps = length ix.
Proof.
  intros Hne Hkeep Hule Hkp.
  destruct (layout_positioned_spec env string features script language direction this)
    as (glyphRun & positioned & this1 & calls1 & Hpos & _ & _ & Hal).
  destruct (layout_finish_spec env positioned glyphRun this1)
    as (c & this2 & calls2 & Hfin & _ & _ & _ & _ & Hlen).
  destruct (Hlen (Hal Hkeep) Hule Hkp) as (r & ps & ix & -> & ?).
  exists r, this2, (calls1 ++ calls2), ps, ix. split; [|done].
  rewrite (layout_split _ _ _ _ _ _ _ _ _ _ _ Hne Hpos). by rewrite Hfin.
Qed.

Lemma layout_lengths_witness :
  let this := Sample.this true
                (Some (Sample.backend (Some Sample.double)
                                      (Some (Sample.report (Some ∅))) false [])) in
  glyphsForString (font this) [0x61; 0xAD] <> []
  /\ exists r this' calls ps ix,
       layout Sample.env [0x61; 0xAD] FeatUndefined None None None this
       = (Normal r, this', calls)
       /\ GlyphRun.positions r = Some ps /\ GlyphRun.stringIndices r = Some ix
       /\ length (GlyphRun.glyphs r) = length ps /\ length ps = length ix.
Proof.
  intros this. split; [discriminate|].
  apply layout_lengths.
  - discriminate.
  - intros e [= <-] f [= <-] b r Hal. exact Hal.
  - intros u gs ps Hlen. by exists gs, ps.
  - intros k gs ps Hlen. by exists gs, ps.
Defined.

(** ** The decoder *)

(** The low ten bits of a surrogate, as [&] and [<<] compute them. *)
Lemma js_and_surrogate (u base : Z) :
  base mod 1024 = 0 -> 0 <= base -> base <= u < base + 1024 -> u < 2147483648 ->
  js_and u 0x3ff = u - base.
Proof.
  intros Hbase H0 Hu Hmax. unfold js_and.
  rewrite (toInt32_small u), (toInt32_small 0x3ff) by lia.
  change 0x3ff with (Z.ones 10). rewrite Z.land_ones by lia.
  change (2 ^ 10) with 1024.
  rewrite toInt32_small by (pose proof (Z.mod_pos_bound u 1024); lia).
  pose proof (Z.div_mod base 1024 ltac:(lia)) as Hb. rewrite Hbase in Hb.
  symmetry. apply (Z.mod_unique u 1024 (base / 1024)); lia.
Qed.

Lemma js_shl_10 (x : Z) : 0 <= x < 1024 -> js_shl x 10 = x * 1024.
Proof.
  intros Hx. unfold js_shl. rewrite (toInt32_small x) by lia.
  rewrite Z.shiftl_mul_pow2 by lia. change (2 ^ 10) with 1024.
  apply toInt32_small. lia.
Qed.

(** One step of the decoder, in arithmetic. *)
Lemma decodeUTF16_decodes (string : list Z) (idx : Z) :
  0 <= idx < Z.of_nat (length string) ->
  decodes string (mkCodePoint idx (decodeUTF16 string idx).1 (decodeUTF16 string idx).2).
Proof.
  intros Hidx. unfold decodes, decodeUTF16, charCodeAt; cbn [cp_index cp_code cp_next].
  destruct (lookup_lt_is_Some_2 string (Z.to_nat idx) ltac:(lia)) as [h Hh].
  rewrite Hh. cbn [from_option id].
  destruct (Z.leb_spec 0xd800 h) as [H1|H1]; cbn [andb];
    [destruct (Z.leb_spec h 0xdbff) as [H2|H2]; cbn [andb];
     [destruct (Z.ltb_spec (idx + 1) (Z.of_nat (length string))) as [H3|H3] | ] | ].
  - destruct (lookup_lt_is_Some_2 string (Z.to_nat (idx + 1)) ltac:(lia)) as [l Hl].
    rewrite Hl. cbn [from_option id].
    destruct (Z.leb_spec 0xdc00 l) as [H4|H4]; cbn [andb];
      [destruct (Z.leb_spec l 0xdfff) as [H5|H5] | ]; cbn [fst snd].
    + right. split; [lia|]. exists h, l.
      unfold isHighSurrogate, isLowSurrogate. repeat split; try done; try lia.
      rewrite (js_and_surrogate h 0xD800), (js_and_surrogate l 0xDC00) by (done || lia).
      rewrite js_shl_10 by lia. lia.
    + left. split; [done|]. split; [done|].
      intros (_ & l' & Hl' & Hlow). unfold isLowSurrogate in Hlow.
      assert (l' = l) by congruence. lia.
    + left. split; [done|]. split; [done|].
      intros (_ & l' & Hl' & Hlow). unfold isLowSurrogate in Hlow.
      assert (l' = l) by congruence. lia.
  - cbn [fst snd]. left. split; [done|]. split; [done|].
    intros (_ & l' & Hl' & _). apply lookup_lt_Some in Hl'. lia.
  - cbn [fst snd]. left. split; [done|]. split; [done|].
    intros (Hhigh & _). unfold isHighSurrogate in Hhigh. lia.
  - cbn [fst snd]. left. split; [done|]. split; [done|].
    intros (Hhigh & _). unfold isHighSurrogate in Hhigh. lia.
Qed.

Lemma decode_loop_shape (fuel : nat) (string : list Z) :
  forall idx : Z,
    0 <= idx <= Z.of_nat (length string) ->
    (Z.to_nat (Z.of_nat (length string) - idx) <= fuel)%nat ->
    tiles idx (decode_loop fuel string idx) (Z.of_nat (length string))
    /\ Forall (decodes string) (decode_loop fuel string idx).
Proof.
  induction fuel as [|fuel IH]; intros idx Hidx Hfuel; cbn [decode_loop].
  - rewrite (proj2 (Z.ltb_ge _ _)) by lia. cbn. split; [lia | constructor].
  - destruct (Z.ltb_spec idx (Z.of_nat (length string))) as [Hlt|Hge].
    + pose proof (decodeUTF16_next string idx Hlt) as [Hnext Hin].
      pose proof (decodeUTF16_decodes string idx ltac:(lia)) as Hdec.
      destruct (decodeUTF16 string idx) as [code next]. cbn [fst snd] in *.
      destruct (IH next ltac:(lia) ltac:(lia)) as [Ht Hf].
      split; [cbn; split; [done|]; split; [lia | done] | by constructor].
    + cbn. split; [lia | constructor].
Qed.

(** X1. The decoder reads every code unit of the string exactly once, left to
    right: the decoded codepoints start at offset 0, each starts where the one
    before ended and takes one or two code units, and the last ends at the
    length of the string. A codepoint of one code unit is that code unit, a
    high surrogate being left alone only when no low surrogate follows it; a
    codepoint of two code units is a high and a low surrogate combined into
    0x10000 + (high - 0xD800) * 0x400 + (low - 0xDC00). *)
Theorem decode_covers_string (string : list Z) :
  tiles 0 (decode string) (Z.of_nat (length string))
  /\ Forall (decodes string) (decode string).
Proof. apply decode_loop_shape; lia. Qed.

(** X2. For a string of 16-bit code units every decoded codepoint lies in
    0..0x10FFFF. *)
Theorem decode_scalar_range (string : list Z) :
  codeUnits string ->
  Forall (fun c => 0 <= cp_code c <= 0x10FFFF) (decode string).
Proof.
  intros Hwf.
  destruct (decode_loop_shape (length string) string 0 ltac:(lia) ltac:(lia)) as [_ Hd].
  eapply Forall_impl; [exact Hd|]. unfold codeUnits in Hwf. rewrite Forall_forall in Hwf.
  intros c [(_ & Hu & _)|(_ & h & l & _ & _ & Hh & Hl & ->)].
  - apply list_elem_of_lookup_2 in Hu. specialize (Hwf _ Hu). lia.
  - unfold isHighSurrogate, isLowSurrogate in *. lia.
Qed.

Lemma decode_scalar_range_witness :
  codeUnits [0x61; 0xD83D; 0xDE00; 0xDBFF]
  /\ Forall (fun c => 0 <= cp_code c <= 0x10FFFF) (decode [0x61; 0xD83D; 0xDE00; 0xDBFF]).
Proof.
  assert (codeUnits [0x61; 0xD83D; 0xDE00; 0xDBFF]) as H
    by (unfold codeUnits; repeat constructor; lia).
  split; [exact H | exact (decode_scalar_range _ H)].
Defined.

(** A code unit at the end of the string decodes to itself. *)
Lemma decodeUTF16_single (cp : Z) : decodeUTF16 [cp] 0 = (cp, 1).
Proof.
  unfold decodeUTF16, charCodeAt. change (Z.of_nat (length [cp])) with 1.
  change (0 + 1 <? 1) with false. by rewrite andb_false_r.
Qed.

(** The surrogate pair of a supplementary codepoint decodes to it. *)
Lemma decodeUTF16_pair (cp : Z) :
  0x10000 <= cp <= 0x10FFFF ->
  decodeUTF16 [0xD800 + (cp - 0x10000) / 0x400; 0xDC00 + (cp - 0x10000) mod 0x400] 0
  = (cp, 2).
Proof.
  intros Hcp.
  pose proof (Z.div_mod (cp - 0x10000) 0x400 ltac:(lia)) as Hdm.
  pose proof (Z.mod_pos_bound (cp - 0x10000) 0x400 ltac:(lia)) as Hm.
  assert (0 <= (cp - 0x10000) / 0x400 < 0x400) as Hd.
  { split; [apply Z.div_pos; lia | apply Z.div_lt_upper_bound; lia]. }
  pose proof (decodeUTF16_decodes
                [0xD800 + (cp - 0x10000) / 0x400; 0xDC00 + (cp - 0x10000) mod 0x400] 0
                ltac:(cbn; lia)) as Hdec.
  pose proof (decodeUTF16_next
                [0xD800 + (cp - 0x10000) / 0x400; 0xDC00 + (cp - 0x10000) mod 0x400] 0
                ltac:(cbn; lia)) as [Hn _].
  destruct (decodeUTF16 _ 0) as [code next]. cbn [fst snd] in *.
  destruct Hdec as [(Hnext & Hu & Hno)|(Hnext & h & l & Hh & Hl & _ & _ & Hcode)];
    cbn [cp_index cp_code cp_next] in *.
  - exfalso. apply Hno. injection Hu as <-. split.
    + unfold isHighSurrogate. lia.
    + eexists. split; [reflexivity|]. unfold isLowSurrogate. lia.
  - injection Hh as <-. injection Hl as <-. f_equal; lia.
Qed.

(** The encoding of a codepoint in range, and what the decoder and the
    builder make of it. *)
Lemma fromCodePoint_decode (font : Font.t) (cp : Z) :
  0 <= cp <= 0x10FFFF ->
  exists s, fromCodePoint cp = Some s
    /\ decode s = [mkCodePoint 0 cp (Z.of_nat (length s))]
    /\ (~ inSelectorRanges cp ->
        glyphsForString font s
        = [ {| GlyphInfo.id := Font.cmap_lookup font cp None;
               GlyphInfo.codePoints := [cp];
               GlyphInfo.stringIndex := Z.of_nat (length s) - 1 |} ]).
Proof.
  intros Hcp. unfold fromCodePoint.
  rewrite (proj2 (Z.ltb_ge cp 0)), (proj2 (Z.ltb_ge 0x10FFFF cp)) by lia. cbn [orb].
  assert (forall s n, decode s = [mkCodePoint 0 cp n] ->
            ~ inSelectorRanges cp ->
            glyphsForString font s
            = [ {| GlyphInfo.id := Font.cmap_lookup font cp None;
                   GlyphInfo.codePoints := [cp];
                   GlyphInfo.stringIndex := n - 1 |} ]) as Hunit.
  { intros s n Hs Hsel%isVariationSelector_false.
    rewrite glyphsForString_units, Hs. cbn [units cp_code]. by rewrite Hsel. }
  destruct (Z.leb_spec cp 0xFFFF) as [Hbmp|Hsup].
  - assert (decode [cp] = [mkCodePoint 0 cp 1]) as Hd.
    { unfold decode. cbn [length decode_loop].
      rewrite decodeUTF16_single. reflexivity. }
    eexists. split; [done|]. split; [exact Hd|]. by apply Hunit.
  - assert (decode [0xD800 + (cp - 0x10000) / 0x400;
                    0xDC00 + (cp - 0x10000) mod 0x400]
            = [mkCodePoint 0 cp 2]) as Hd.
    { unfold decode. cbn [length decode_loop].
      rewrite decodeUTF16_pair by lia. reflexivity. }
    eexists. split; [done|]. split; [exact Hd|]. by apply Hunit.
Qed.

Lemma fromCodePoint_None (cp : Z) :
  fromCodePoint cp = None <-> ~ (0 <= cp <= 0x10FFFF).
Proof.
  unfold fromCodePoint.
  destruct (Z.ltb_spec cp 0); cbn [orb]; [split; [lia | done]|].
  destruct (Z.ltb_spec 0x10FFFF cp); [split; [lia | done]|].
  destruct (cp <=? 0xFFFF); split; (done || lia).
Qed.

(** X3. Decoding inverts the UTF-16 encoding of a single codepoint: for every
    codepoint in 0..0x10FFFF (a lone surrogate included) the decoder reads its
    encoding back as that one codepoint, and when it is no variation selector
    the builder returns one unit for it, with the glyph of the one-argument
    lookup, at the offset of its last code unit. Outside that range there is
    no encoding. *)
Theorem glyphsForString_fromCodePoint (font : Font.t) (cp : Z) :
  (0 <= cp <= 0x10FFFF ->
   exists s, fromCodePoint cp = Some s
     /\ decode s = [mkCodePoint 0 cp (Z.of_nat (length s))]
     /\ (~ inSelectorRanges cp ->
         glyphsForString font s
         = [ {| GlyphInfo.id := Font.cmap_lookup font cp None;
                GlyphInfo.codePoints := [cp];
                GlyphInfo.stringIndex := Z.of_nat (length s) - 1 |} ]))
  /\ (~ (0 <= cp <= 0x10FFFF) -> fromCodePoint cp = None).
Proof.
  split; [apply fromCodePoint_decode | apply fromCodePoint_None].
Qed.

Lemma glyphsForString_fromCodePoint_witness :
  0 <= 0x1F600 <= 0x10FFFF
  /\ fromCodePoint 0x1F600 = Some [0xD83D; 0xDE00]
  /\ decode [0xD83D; 0xDE00] = [mkCodePoint 0 0x1F600 2].
Proof.
  split; [lia|].
  destruct (glyphsForString_fromCodePoint (Sample.font false) 0x1F600) as [H _].
  destruct (H ltac:(lia)) as (s & Hs & Hd & _).
  assert (s = [0xD83D; 0xDE00]) as -> by (vm_compute in Hs; congruence).
  split; [exact Hs | exact Hd].
Defined.

(** ** Units and bases *)

Lemma units_bases (font : Font.t) (cps : list CodePoint) :
  forall pending : option CodePoint,
    map (fun g => GlyphInfo.codePoints g !! 0%nat) (units font pending cps)
    = map (fun c => Some (cp_code c))
          (match pending with Some b => [b] | None => [] end ++ bases cps).
Proof.
  induction cps as [|c cps IH]; intros pending; cbn [units bases List.filter].
  - destruct pending; by rewrite ?app_nil_r.
  - fold (bases cps).
    destruct (isVariationSelector (cp_code c)); cbn [negb];
      rewrite map_app, IH; by destruct pending.
Qed.

Lemma glyphsForString_nil (font : Font.t) (string : list Z) :
  glyphsForString font string = []
  <-> Forall (fun c => inSelectorRanges (cp_code c)) (decode string).
Proof.
  pose proof (units_bases font (decode string) None) as Hb.
  rewrite <- glyphsForString_units in Hb. cbn [app] in Hb.
  assert (glyphsForString font string = [] <-> bases (decode string) = []) as ->.
  { split; intros H.
    - rewrite H in Hb. cbn in Hb. symmetry in Hb. by apply map_eq_nil in Hb.
    - rewrite H in Hb. cbn in Hb. by apply map_eq_nil in Hb. }
  unfold bases. generalize (decode string). intros cps.
  induction cps as [|c cps IH]; cbn [List.filter].
  - split; [constructor | done].
  - destruct (isVariationSelector (cp_code c)) eqn:Hc; cbn [negb].
    + rewrite IH. split; [intros H; constructor; [by apply isVariationSelector_true | done]
                         | by intros H%Forall_inv_tail].
    + split; [done|]. intros H%Forall_inv. apply isVariationSelector_true in H.
      congruence.
Qed.

(** X4. The builder returns exactly one unit for every decoded codepoint that
    is no variation selector, in text order, with that codepoint as its first
    codepoint; so it returns at most one unit per code unit, and none exactly
    when every decoded codepoint is a variation selector. *)
Theorem glyphsForString_bases (font : Font.t) (string : list Z) :
  map (fun g => GlyphInfo.codePoints g !! 0%nat) (glyphsForString font string)
  = map (fun c => Some (cp_code c)) (bases (decode string))
  /\ (length (glyphsForString font string) <= length string)%nat
  /\ (glyphsForString font string = []
      <-> Forall (fun c => inSelectorRanges (cp_code c)) (decode string)).
Proof.
  pose proof (units_bases font (decode string) None) as Hb.
  rewrite <- glyphsForString_units in Hb. cbn [app] in Hb.
  split; [exact Hb|]. split; [|apply glyphsForString_nil].
  apply (f_equal length) in Hb. rewrite !length_map in Hb. rewrite Hb.
  assert (forall idx cps stop, tiles idx cps stop ->
            Z.of_nat (length cps) <= stop - idx) as Hlen.
  { intros idx cps. revert idx.
    induction cps as [|c cps IH]; intros idx stop; cbn [tiles length].
    - lia.
    - intros (_ & Hw & Ht). specialize (IH _ _ Ht). lia. }
  destruct (decode_loop_shape (length string) string 0 ltac:(lia) ltac:(lia)) as [Ht _].
  specialize (Hlen _ _ _ Ht). fold (decode string) in Hlen.
  pose proof (filter_length_le
                (fun c => negb (isVariationSelector (cp_code c))) (decode string)).
  unfold bases. lia.
Qed.

(** ** Source offsets *)

Lemma tiles_le (cps : list CodePoint) :
  forall idx stop, tiles idx cps stop -> idx <= stop.
Proof.
  induction cps as [|c cps IH]; intros idx stop; cbn [tiles]; [lia|].
  intros (_ & Hw & Ht). specialize (IH _ _ Ht). lia.
Qed.

Lemma increasingFrom_weaken (l : list Z) (lo lo' : Z) :
  lo <= lo' -> increasingFrom lo' l -> increasingFrom lo l.
Proof. destruct l; cbn; [done|]. intros ? [? ?]. split; [lia | done]. Qed.

Lemma increasingFrom_app (l1 l2 : list Z) :
  forall lo, increasingFrom lo l1 ->
    (forall x, last l1 = Some x -> increasingFrom (x + 1) l2) ->
    (l1 = [] -> increasingFrom lo l2) ->
    increasingFrom lo (l1 ++ l2).
Proof.
  induction l1 as [|x l1 IH]; intros lo H1 H2 H3; cbn [app]; [by apply H3|].
  destruct H1 as [Hx H1]. cbn. split; [done|].
  apply IH; [done | |].
  - intros y Hy. apply H2. destruct l1; [done|]. by rewrite last_cons, Hy.
  - intros ->. apply H2. reflexivity.
Qed.

Lemma increasingFrom_lookup (l : list Z) :
  forall lo, increasingFrom lo l ->
    (forall i x, l !! i = Some x -> lo <= x)
    /\ (forall i j x y, (i < j)%nat -> l !! i = Some x -> l !! j = Some y -> x < y).
Proof.
  induction l as [|a l IH]; intros lo Hinc.
  - split; intros; by rewrite ?lookup_nil in *.
  - destruct Hinc as [Ha Hinc]. destruct (IH _ Hinc) as [IH1 IH2]. split.
    + intros [|i] x; cbn; [intros [= <-]; lia|]. intros Hx. specialize (IH1 _ _ Hx). lia.
    + intros [|i] [|j] x y Hij; cbn; try lia.
      * intros [= <-] Hy. specialize (IH1 _ _ Hy). lia.
      * intros Hx Hy. apply (IH2 i j); [lia | done | done].
Qed.

Lemma units_increasing (font : Font.t) (cps : list CodePoint) :
  forall (pending : option CodePoint) (idx stop : Z),
    tiles idx cps stop ->
    (forall b, pending = Some b -> cp_next b = idx) ->
    increasingFrom (match pending with Some _ => idx - 1 | None => idx end)
                   (map GlyphInfo.stringIndex (units font pending cps))
    /\ Forall (fun g => GlyphInfo.stringIndex g < stop) (units font pending cps).
Proof.
  induction cps as [|c cps IH]; intros pending idx stop Ht Hp; cbn [units].
  - cbn in Ht. subst stop. destruct pending as [b|]; cbn; [|done].
    specialize (Hp b eq_refl). split; [lia | repeat constructor; cbn; lia].
  - destruct Ht as (Hi & Hw & Ht). pose proof (tiles_le _ _ _ Ht) as Hle.
    destruct (isVariationSelector (cp_code c)).
    + destruct (IH None _ _ Ht ltac:(done)) as [IH1 IH2].
      destruct pending as [b|]; cbn [app map].
      * specialize (Hp b eq_refl). split.
        -- cbn. split; [lia|]. eapply increasingFrom_weaken; [|exact IH1]. lia.
        -- constructor; [cbn; lia | done].
      * split; [|done]. eapply increasingFrom_weaken; [|exact IH1]. lia.
    + destruct (IH (Some c) _ _ Ht ltac:(by intros b [= <-])) as [IH1 IH2].
      destruct pending as [b|]; cbn [flush app map].
      * specialize (Hp b eq_refl). split.
        -- cbn. split; [lia|]. eapply increasingFrom_weaken; [|exact IH1]. lia.
        -- constructor; [cbn; lia | done].
      * split; [|done]. eapply increasingFrom_weaken; [|exact IH1]. lia.
Qed.

(** X5. The offsets the builder records lie inside the string and increase
    strictly from unit to unit. *)
Theorem glyphsForString_offsets_increase (font : Font.t) (string : list Z) :
  Forall (fun g => 0 <= GlyphInfo.stringIndex g < Z.of_nat (length string))
         (glyphsForString font string)
  /\ forall (i j : nat) gi gj,
       (i < j)%nat ->
       glyphsForString font string !! i = Some gi ->
       glyphsForString font string !! j = Some gj ->
       GlyphInfo.stringIndex gi < GlyphInfo.stringIndex gj.
Proof.
  destruct (decode_loop_shape (length string) string 0 ltac:(lia) ltac:(lia)) as [Ht _].
  destruct (units_increasing font _ None _ _ Ht ltac:(done)) as [Hinc Hlt].
  fold (decode string) in Hinc, Hlt. rewrite <- glyphsForString_units in Hinc, Hlt.
  destruct (increasingFrom_lookup _ _ Hinc) as [Hlo Hord]. split.
  - apply Forall_forall. intros g Hg. split.
    + apply list_elem_of_lookup in Hg as [i Hi].
      apply (Hlo i). by rewrite list_lookup_fmap, Hi.
    + rewrite Forall_forall in Hlt. by apply Hlt.
  - intros i j gi gj Hij Hi Hj.
    apply (Hord i j); [done | by rewrite list_lookup_fmap, Hi
                             | by rewrite list_lookup_fmap, Hj].
Qed.

Lemma glyphsForString_offsets_increase_witness :
  let g0 := GlyphInfo.mk 0x61 [0x61] 0 in
  let g1 := GlyphInfo.mk 0x1F600 [0x1F600] 2 in
  (0 < 1)%nat
  /\ glyphsForString (Sample.font true) [0x61; 0xD83D; 0xDE00] !! 0%nat = Some g0
  /\ glyphsForString (Sample.font true) [0x61; 0xD83D; 0xDE00] !! 1%nat = Some g1
  /\ GlyphInfo.stringIndex g0 < GlyphInfo.stringIndex g1.
Proof.
  intros g0 g1. split; [lia|]. split; [reflexivity|]. split; [reflexivity|].
  apply (proj2 (glyphsForString_offsets_increase (Sample.font true)
                  [0x61; 0xD83D; 0xDE00]) 0%nat 1%nat g0 g1);
    [lia | reflexivity | reflexivity].
Defined.

(** ** Strings without surrogate pairs and selectors *)

Lemma decodeUTF16_not_high (string : list Z) (idx u : Z) :
  string !! Z.to_nat idx = Some u -> ~ isHighSurrogate u ->
  decodeUTF16 string idx = (u, idx + 1).
Proof.
  intros Hu Hhigh. unfold decodeUTF16, charCodeAt. rewrite Hu. cbn [from_option id].
  unfold isHighSurrogate in Hhigh.
  destruct (Z.leb_spec 0xd800 u), (Z.leb_spec u 0xdbff); cbn [andb]; (done || lia).
Qed.

Lemma decode_loop_code_units (rest : list Z) :
  forall (pre : list Z) (fuel : nat),
    Forall (fun u => ~ isHighSurrogate u) rest ->
    (length rest <= fuel)%nat ->
    decode_loop fuel (pre ++ rest) (Z.of_nat (length pre))
    = imap (fun i u => mkCodePoint (Z.of_nat (length pre + i)) u
                                   (Z.of_nat (length pre + i) + 1)) rest.
Proof.
  induction rest as [|u rest IH]; intros pre fuel Hhigh Hfuel.
  - rewrite app_nil_r. destruct fuel; cbn [decode_loop];
      by rewrite Z.ltb_irrefl.
  - destruct fuel as [|fuel]; [cbn in Hfuel; lia|]. cbn [decode_loop].
    rewrite length_app. cbn [length].
    rewrite (proj2 (Z.ltb_lt _ _)) by lia.
    apply Forall_cons in Hhigh as [Hu Hhigh].
    rewrite (decodeUTF16_not_high _ _ u); [|by rewrite Nat2Z.id, list_lookup_middle|done].
    rewrite imap_cons. f_equal; [by rewrite Nat.add_0_r|].
    replace (pre ++ u :: rest) with ((pre ++ [u]) ++ rest) by (by rewrite <- app_assoc).
    replace (Z.of_nat (length pre) + 1) with (Z.of_nat (length (pre ++ [u])))
      by (rewrite length_app; cbn; lia).
    rewrite IH by (done || cbn in Hfuel; lia).
    apply imap_ext. intros i x _. cbn. rewrite length_app. cbn [length].
    by replace (length pre + 1 + i)%nat with (length pre + S i)%nat by lia.
Qed.

Lemma units_no_selector (font : Font.t) (cps : list CodePoint) :
  forall pending : option CodePoint,
    Forall (fun c => isVariationSelector (cp_code c) = false) cps ->
    units font pending cps = flush font pending ++ map (unit1 font) cps.
Proof.
  induction cps as [|c cps IH]; intros pending Hsel; cbn [units map].
  - by rewrite app_nil_r.
  - apply Forall_cons in Hsel as [Hc Hsel]. rewrite Hc, IH by done. reflexivity.
Qed.

(** X6. On a string without high surrogates and without variation selectors
    the builder is the one-to-one mapping its comment announces: one unit per
    code unit, in order, the unit at position [i] holding the code unit there
    as its only codepoint, the glyph the one-argument lookup gives for it,
    and [i] as its offset. *)
Theorem glyphsForString_one_to_one (font : Font.t) (string : list Z) :
  Forall (fun u => ~ isHighSurrogate u /\ ~ inSelectorRanges u) string ->
  glyphsForString font string
  = imap (fun i u => {| GlyphInfo.id := Font.cmap_lookup font u None;
                        GlyphInfo.codePoints := [u];
                        GlyphInfo.stringIndex := Z.of_nat i |}) string.
Proof.
  intros Hs. rewrite glyphsForString_units. unfold decode.
  pose proof (decode_loop_code_units string [] (length string)) as Hd.
  cbn [length app Nat.add] in Hd. change (Z.of_nat 0) with 0 in Hd. rewrite Hd.
  - rewrite units_no_selector.
    + cbn [flush app]. change (map (unit1 font)) with (fmap (M := list) (unit1 font)).
      rewrite fmap_imap. apply imap_ext. intros i u _. unfold unit1. cbn.
      f_equal. lia.
    + apply Forall_forall. intros c Hc.
      apply elem_of_lookup_imap in Hc as (i & u & -> & Hu). cbn.
      apply isVariationSelector_false. rewrite Forall_forall in Hs.
      apply list_elem_of_lookup_2 in Hu. by apply Hs.
  - eapply Forall_impl; [exact Hs|]. by intros u [? _].
  - done.
Qed.

Lemma glyphsForString_one_to_one_witness :
  Forall (fun u => ~ isHighSurrogate u /\ ~ inSelectorRanges u) [0x66; 0x69; 0xDC00]
  /\ glyphsForString (Sample.font false) [0x66; 0x69; 0xDC00]
     = [ GlyphInfo.mk 0x66 [0x66] 0; GlyphInfo.mk 0x69 [0x69] 1;
         GlyphInfo.mk 0xDC00 [0xDC00] 2 ].
Proof.
  assert (Forall (fun u => ~ isHighSurrogate u /\ ~ inSelectorRanges u)
                 [0x66; 0x69; 0xDC00]) as H.
  { repeat constructor; unfold isHighSurrogate, inSelectorRanges; lia. }
  split; [exact H|]. rewrite (glyphsForString_one_to_one _ _ H). reflexivity.
Defined.

(** ** The hiding pass, at its edges *)

Lemma hideDefaultIgnorables_step_shape (space : Glyph.t) (i : nat)
    (gs : list GlyphInfo.t) (ops : option (list GlyphPosition.t)) :
  match hideDefaultIgnorables_step space i (gs, ops) with
  | Normal (gs', ops') =>
      length gs' = length gs
      /\ (forall j, firstCodePointIgnorable <$> gs' !! j
                    = firstCodePointIgnorable <$> gs !! j)
      /\ (forall j, positionAt ops' j = None <-> positionAt ops j = None)
      /\ (forall g, gs !! i = Some g -> firstCodePointIgnorable g = true ->
                    is_Some (positionAt ops i))
  | Throw _ =>
      exists g, gs !! i = Some g /\ firstCodePointIgnorable g = true
                /\ positionAt ops i = None
  end.
Proof.
  unfold hideDefaultIgnorables_step.
  destruct (gs !! i) as [g|] eqn:Hg.
  - destruct (firstCodePointIgnorable g) eqn:Hign.
    + destruct ops as [ps|]; [destruct (ps !! i) as [p|] eqn:Hp |].
      * split; [by rewrite length_insert|]. split; [|split].
        -- intros j. destruct (decide (j = i)) as [->|Hne].
           ++ rewrite list_lookup_insert_eq by (by eapply lookup_lt_Some).
              by rewrite Hg.
           ++ by rewrite list_lookup_insert_ne.
        -- intros j. cbn [positionAt]. destruct (decide (j = i)) as [->|Hne].
           ++ rewrite list_lookup_insert_eq by (by eapply lookup_lt_Some).
              by rewrite Hp.
           ++ by rewrite list_lookup_insert_ne.
        -- intros g' _ _. cbn. by rewrite Hp.
      * exists g. by cbn.
      * exists g. by cbn.
    + split; [done|]. split; [done|]. split; [done|]. intros g' [= <-]. congruence.
  - split; [done|]. split; [done|]. split; [done|]. by intros g' [=].
Qed.

(** The loop over the indices from [k] on throws exactly when one of the
    glyphs there is ignorable and has no position. *)
Lemma hideDefaultIgnorables_loop_throws (space : Glyph.t) (m : nat) :
  forall (k : nat) (gs : list GlyphInfo.t) (ops : option (list GlyphPosition.t)),
    (exists e, hideDefaultIgnorables_loop space (seq k m) (gs, ops) = Throw e)
    <-> exists i g, (k <= i < k + m)%nat /\ gs !! i = Some g
                    /\ firstCodePointIgnorable g = true /\ positionAt ops i = None.
Proof.
  induction m as [|m IH]; intros k gs ops; cbn [seq hideDefaultIgnorables_loop].
  - split; [by intros [e [=]] | intros (i & g & Hi & _); lia].
  - pose proof (hideDefaultIgnorables_step_shape space k gs ops) as Hstep.
    destruct (hideDefaultIgnorables_step space k (gs, ops)) as [[gs' ops']|e].
    + destruct Hstep as (Hlen & Hign & Hpos & Hk). rewrite IH. split.
      * intros (i & g' & Hi & Hg' & Hig & Hp).
        pose proof (Hign i) as Hi'. rewrite Hg' in Hi'. cbn in Hi'.
        destruct (gs !! i) as [g|] eqn:Hg; [|done]. injection Hi' as Hi'.
        exists i, g. split; [lia|]. split; [done|]. split; [congruence|].
        by apply Hpos.
      * intros (i & g & Hi & Hg & Hig & Hp).
        destruct (decide (i = k)) as [->|Hne].
        { destruct (Hk g Hg Hig) as [p Hp']. congruence. }
        pose proof (Hign i) as Hi'. rewrite Hg in Hi'. cbn in Hi'.
        destruct (gs' !! i) as [g'|] eqn:Hg'; [|done]. injection Hi' as Hi'.
        exists i, g'. split; [lia|]. split; [done|]. split; [congruence|].
        by apply Hpos.
    + destruct Hstep as (g & Hg & Hig & Hp). split; [|by eexists].
      intros _. exists k, g. split; [lia | done].
Qed.

(** X7. The hiding pass throws, a TypeError, exactly when some glyph whose
    first codepoint is default-ignorable has no position at its index (the
    position array is missing or too short there); otherwise it completes. *)
Theorem hideDefaultIgnorables_throws (font : Font.t) (glyphs : list GlyphInfo.t)
    (positions : option (list GlyphPosition.t)) :
  hideDefaultIgnorables font glyphs positions = Throw TypeError
  <-> exists i g, glyphs !! i = Some g /\ firstCodePointIgnorable g = true
                  /\ positionAt positions i = None.
Proof.
  unfold hideDefaultIgnorables.
  pose proof (hideDefaultIgnorables_loop_throws (Font.glyphForCodePoint font 0x20)
                (length glyphs) 0 glyphs positions) as H.
  split.
  - intros Hthrow. destruct (proj1 H (ex_intro _ _ Hthrow)) as (i & g & _ & ?).
    by exists i, g.
  - intros (i & g & Hg & Hrest).
    destruct (proj2 H) as [[] ->]; [|done].
    exists i, g. split; [|done]. apply lookup_lt_Some in Hg. lia.
Qed.

Lemma hideDefaultIgnorables_loop_unchanged (space : Glyph.t) (indices : list nat)
    (gs : list GlyphInfo.t) (ops : option (list GlyphPosition.t)) :
  Forall (fun g => firstCodePointIgnorable g = false) gs ->
  hideDefaultIgnorables_loop space indices (gs, ops) = Normal (gs, ops).
Proof.
  intros Hgs. induction indices as [|i indices IH]; cbn [hideDefaultIgnorables_loop];
    [done|].
  unfold hideDefaultIgnorables_step. destruct (gs !! i) as [g|] eqn:Hg; [|done].
  rewrite Forall_forall in Hgs. apply list_elem_of_lookup_2 in Hg.
  by rewrite (Hgs g Hg).
Qed.

(** X8. When no glyph has a default-ignorable first codepoint the hiding pass
    leaves both arrays as they are and never throws, whatever the position
    array is: missing, shorter or longer than the glyph array. *)
Theorem hideDefaultIgnorables_nothing_to_hide (font : Font.t)
    (glyphs : list GlyphInfo.t) (positions : option (list GlyphPosition.t)) :
  Forall (fun g => firstCodePointIgnorable g = false) glyphs ->
  hideDefaultIgnorables font glyphs positions = Normal (glyphs, positions).
Proof. intros H. by apply hideDefaultIgnorables_loop_unchanged. Qed.

Lemma hideDefaultIgnorables_nothing_to_hide_witness :
  Forall (fun g => firstCodePointIgnorable g = false)
         [GlyphInfo.mk 0x61 [0x61] 0; GlyphInfo.mk 0x62 [0x62] 1]
  /\ hideDefaultIgnorables (Sample.font false)
       [GlyphInfo.mk 0x61 [0x61] 0; GlyphInfo.mk 0x62 [0x62] 1] None
     = Normal ([GlyphInfo.mk 0x61 [0x61] 0; GlyphInfo.mk 0x62 [0x62] 1], None).
Proof.
  assert (Forall (fun g => firstCodePointIgnorable g = false)
                 [GlyphInfo.mk 0x61 [0x61] 0; GlyphInfo.mk 0x62 [0x62] 1]) as H
    by (by repeat constructor).
  split; [exact H | exact (hideDefaultIgnorables_nothing_to_hide _ _ None H)].
Defined.

(** On aligned arrays the pass gives every glyph its hidden form. *)
Lemma hideDefaultIgnorables_hidden (font : Font.t) (glyphs : list GlyphInfo.t)
    (positions : list GlyphPosition.t) :
  length positions = length glyphs ->
  exists positions',
    hideDefaultIgnorables font glyphs (Some positions)
    = Normal (hiddenGlyph font <$> glyphs, Some positions')
    /\ length positions' = length positions
    /\ forall (i : nat) g p, glyphs !! i = Some g -> positions !! i = Some p ->
         positions' !! i = Some (if firstCodePointIgnorable g
                                 then GlyphPosition.zero_advance p else p).
Proof.
  intros Hlen. unfold hideDefaultIgnorables.
  destruct (hideDefaultIgnorables_loop_spec (Font.glyphForCodePoint font 0x20)
              (length glyphs) 0 glyphs positions Hlen eq_refl)
    as (gs' & ps' & Hrun & Hlg & Hlp & Hpt).
  assert (gs' = hiddenGlyph font <$> glyphs) as ->.
  { apply list_eq. intros i. rewrite list_lookup_fmap.
    destruct (glyphs !! i) as [g|] eqn:Hg.
    - destruct (lookup_lt_is_Some_2 positions i) as [p Hp].
      { apply lookup_lt_Some in Hg. lia. }
      specialize (Hpt i g p Hg Hp). cbn [Nat.leb andb] in Hpt. unfold hiddenGlyph. cbn.
      destruct (firstCodePointIgnorable g); by destruct Hpt as [-> _].
    - cbn. apply lookup_ge_None. apply lookup_ge_None in Hg. lia. }
  exists ps'. split; [done|]. split; [done|].
  intros i g p Hg Hp. specialize (Hpt i g p Hg Hp). cbn [Nat.leb andb] in Hpt.
  destruct (firstCodePointIgnorable g); by destruct Hpt as [_ ->].
Qed.

(** X9. The hiding pass is idempotent: run again on the arrays it returned for
    a glyph array and a position array of one length, it returns them
    unchanged. *)
Theorem hideDefaultIgnorables_idempotent (font : Font.t) (glyphs : list GlyphInfo.t)
    (positions : list GlyphPosition.t) :
  length positions = length glyphs ->
  exists glyphs' positions',
    hideDefaultIgnorables font glyphs (Some positions) = Normal (glyphs', Some positions')
    /\ hideDefaultIgnorables font glyphs' (Some positions')
       = Normal (glyphs', Some positions').
Proof.
  intros Hlen.
  destruct (hideDefaultIgnorables_hidden font glyphs positions Hlen)
    as (ps' & Hrun & Hlp & Hpt).
  exists (hiddenGlyph font <$> glyphs), ps'. split; [done|].
  destruct (hideDefaultIgnorables_hidden font (hiddenGlyph font <$> glyphs) ps')
    as (ps'' & Hrun' & Hlp' & Hpt').
  { rewrite length_fmap. lia. }
  rewrite Hrun'. f_equal. f_equal.
  - rewrite <- list_fmap_compose. apply list_fmap_ext. intros i g _. cbn.
    unfold hiddenGlyph. destruct (firstCodePointIgnorable g) eqn:Hg; [|by rewrite Hg].
    unfold firstCodePointIgnorable in *. cbn. by rewrite Hg.
  - f_equal. apply list_eq. intros i.
    destruct (glyphs !! i) as [g|] eqn:Hg.
    + destruct (lookup_lt_is_Some_2 positions i) as [p Hp].
      { apply lookup_lt_Some in Hg. lia. }
      rewrite (Hpt i g p Hg Hp).
      rewrite (Hpt' i (hiddenGlyph font g)
                 (if firstCodePointIgnorable g then GlyphPosition.zero_advance p else p)).
      * unfold hiddenGlyph. destruct (firstCodePointIgnorable g) eqn:Hign;
          [|by rewrite Hign].
        unfold firstCodePointIgnorable in *. cbn. by rewrite Hign.
      * by rewrite list_lookup_fmap, Hg.
      * by apply Hpt.
    + apply lookup_ge_None in Hg.
      rewrite (proj2 (lookup_ge_None ps' i)), (proj2 (lookup_ge_None ps'' i)) by lia.
      done.
Qed.

Lemma hideDefaultIgnorables_idempotent_witness :
  let glyphs := [GlyphInfo.mk 0x61 [0x61] 0; GlyphInfo.mk 0xAD [0xAD] 1] in
  let positions := [GlyphPosition.mk 600 0 3 4; GlyphPosition.mk 500 7 5 6] in
  length positions = length glyphs
  /\ exists glyphs' positions',
       hideDefaultIgnorables (Sample.font false) glyphs (Some positions)
       = Normal (glyphs', Some positions')
       /\ hideDefaultIgnorables (Sample.font false) glyphs' (Some positions')
          = Normal (glyphs', Some positions').
Proof.
  intros glyphs positions. split; [reflexivity|].
  apply hideDefaultIgnorables_idempotent. reflexivity.
Defined.

(** ** The feature enumeration, by membership *)

(** X10. A tag is among the available features exactly when the backend
    reports it, or it is the kerning tag and the font has a legacy kern
    table. *)
Theorem getAvailableFeatures_elem (this : LayoutEngine) (script language : option Tag)
    (tag : Tag) :
  tag ∈ getAvailableFeatures this script language
  <-> tag ∈ reportedFeatures this script language
      \/ (tag = "kern"%string /\ Font.kern (font this) = true).
Proof.
  unfold getAvailableFeatures. fold (reportedFeatures this script language).
  destruct (indexOf_absent (reportedFeatures this script language) "kern") as [Habs _].
  destruct (Font.kern (font this)); cbn [andb].
  - destruct (Z.eqb_spec (indexOf (reportedFeatures this script language) "kern") (-1))
      as [E|E].
    + rewrite elem_of_app, list_elem_of_singleton. tauto.
    + split; [by left|]. intros [H|[-> _]]; [done|].
      destruct (decide ("kern"%string ∈ reportedFeatures this script language));
        [done|]. by apply Habs in n.
  - split; [by left|]. by intros [H|[_ [=]]].
Qed.

(** ** The reverse lookup *)

Lemma Set_add_spec (x : list Z) (result : list (list Z)) :
  NoDup result ->
  NoDup (Set_add x result) /\ forall y, y ∈ Set_add x result <-> y ∈ result \/ y = x.
Proof.
  intros Hnd. unfold Set_add. destruct (bool_decide_reflect (x ∈ result)) as [Hin|Hin].
  - split; [done|]. intros y. split; [by left|]. by intros [?| ->].
  - split.
    + apply NoDup_app. split; [done|]. split; [|apply NoDup_singleton].
      by intros y Hy ->%list_elem_of_singleton.
    + intros y. by rewrite elem_of_app, list_elem_of_singleton.
Qed.

Lemma stringsForGlyph_codePoints_spec (codePoints : list Z) :
  forall result : list (list Z),
    NoDup result ->
    match stringsForGlyph_codePoints codePoints result with
    | Some result' =>
        Forall (fun cp => 0 <= cp <= 0x10FFFF) codePoints
        /\ NoDup result'
        /\ forall s, s ∈ result'
             <-> s ∈ result \/ exists cp, cp ∈ codePoints /\ fromCodePoint cp = Some s
    | None => Exists (fun cp => ~ (0 <= cp <= 0x10FFFF)) codePoints
    end.
Proof.
  induction codePoints as [|cp cps IH]; intros result Hnd;
    cbn [stringsForGlyph_codePoints].
  - split; [constructor|]. split; [done|]. intros s. split; [by left|].
    intros [?|(cp & Hcp & _)]; [done|]. by apply elem_of_nil in Hcp.
  - destruct (fromCodePoint cp) as [s0|] eqn:Hcp.
    + destruct (Set_add_spec s0 result Hnd) as [Hnd' Hin].
      specialize (IH _ Hnd').
      destruct (stringsForGlyph_codePoints cps (Set_add s0 result)) as [result'|].
      * destruct IH as (Hall & Hnd'' & Hmem). split; [|split; [done|]].
        -- constructor; [|done].
           destruct (decide (0 <= cp <= 0x10FFFF)) as [?|Hout]; [done|].
           apply fromCodePoint_None in Hout. congruence.
        -- intros s. rewrite Hmem, Hin. split.
           ++ intros [[?| ->]|(cp' & Hcp' & Hs)]; [by left | |].
              ** right. exists cp. split; [by left | done].
              ** right. exists cp'. split; [by right | done].
           ++ intros [?|(cp' & Hcp' & Hs)]; [by left; left|].
              apply elem_of_cons in Hcp' as [->|Hcp'].
              ** left. right. congruence.
              ** right. by exists cp'.
      * by apply Exists_cons_tl.
    + apply Exists_cons_hd. by apply fromCodePoint_None.
Qed.

Lemma stringsForGlyph_strings_spec (strings : list (list Z)) :
  forall result : list (list Z),
    NoDup result ->
    NoDup (stringsForGlyph_strings strings result)
    /\ forall s, s ∈ stringsForGlyph_strings strings result <-> s ∈ result \/ s ∈ strings.
Proof.
  unfold stringsForGlyph_strings.
  induction strings as [|x strings IH]; intros result Hnd; cbn [foldl].
  - split; [done|]. intros s. split; [by left|]. intros [?|H]; [done|].
    by apply elem_of_nil in H.
  - destruct (Set_add_spec x result Hnd) as [Hnd' Hin].
    destruct (IH _ Hnd') as [Hnd'' Hmem]. split; [done|].
    intros s. rewrite Hmem, Hin, elem_of_cons. tauto.
Qed.

(** X11. When every codepoint the font's map reports for the glyph lies in
    0..0x10FFFF, [stringsForGlyph] returns a list without duplicates that
    holds exactly the encodings of those codepoints and the strings the
    backend reports for the glyph (none when there is no backend or it has no
    such operation). When some reported codepoint lies outside that range the
    call ends with the RangeError of [String.fromCodePoint]. *)
Theorem stringsForGlyph_union (src : GlyphSources) (this : LayoutEngine) (gid : Z) :
  (Forall (fun cp => 0 <= cp <= 0x10FFFF) (codePointsForGlyph src (font this) gid) ->
   exists result,
     stringsForGlyph src this gid = Some result
     /\ NoDup result
     /\ forall s, s ∈ result
          <-> (exists cp, cp ∈ codePointsForGlyph src (font this) gid
                          /\ fromCodePoint cp = Some s)
              \/ s ∈ backendStrings src this gid)
  /\ (~ Forall (fun cp => 0 <= cp <= 0x10FFFF) (codePointsForGlyph src (font this) gid) ->
      stringsForGlyph src this gid = None).
Proof.
  unfold stringsForGlyph, backendStrings.
  pose proof (stringsForGlyph_codePoints_spec
                (codePointsForGlyph src (font this) gid) [] (NoDup_nil_2)) as Hcp.
  destruct (stringsForGlyph_codePoints (codePointsForGlyph src (font this) gid) [])
    as [result|].
  - destruct Hcp as (Hall & Hnd & Hmem). split; [|done]. intros _.
    assert (forall s, s ∈ result
              <-> exists cp, cp ∈ codePointsForGlyph src (font this) gid
                             /\ fromCodePoint cp = Some s) as Hmem'.
    { intros s. rewrite Hmem. split; [|by right]. intros [H|?]; [|done].
      by apply elem_of_nil in H. }
    destruct (engine this) as [e|]; [destruct (engine_stringsForGlyph src e) as [f|] |].
    + destruct (stringsForGlyph_strings_spec (f gid) result Hnd) as [Hnd' Hmem''].
      eexists. split; [done|]. split; [done|]. intros s. by rewrite Hmem'', Hmem'.
    + eexists. split; [done|]. split; [done|]. intros s. rewrite Hmem'.
      split; [by left|]. intros [?|H]; [done|]. by apply elem_of_nil in H.
    + eexists. split; [done|]. split; [done|]. intros s. rewrite Hmem'.
      split; [by left|]. intros [?|H]; [done|]. by apply elem_of_nil in H.
  - split; [|done]. intros Hall. exfalso.
    apply Exists_exists in Hcp as (cp & Hin & Hout).
    rewrite Forall_forall in Hall. by apply Hout, Hall.
Qed.

Lemma stringsForGlyph_union_witness :
  let this := Sample.this false (Some (Sample.backend None None false [])) in
  Forall (fun cp => 0 <= cp <= 0x10FFFF) (codePointsForGlyph sampleSources (font this) 0x66)
  /\ stringsForGlyph sampleSources this 0x66
     = Some [[0x66]; [0xD83D; 0xDE00]; [0x66; 0x69]]
  /\ exists result,
       stringsForGlyph sampleSources this 0x66 = Some result
       /\ NoDup result
       /\ forall s, s ∈ result
            <-> (exists cp, cp ∈ codePointsForGlyph sampleSources (font this) 0x66
                            /\ fromCodePoint cp = Some s)
                \/ s ∈ backendStrings sampleSources this 0x66.
Proof.
  intros this.
  assert (Forall (fun cp => 0 <= cp <= 0x10FFFF)
                 (codePointsForGlyph sampleSources (font this) 0x66)) as H.
  { cbn. repeat constructor; lia. }
  split; [exact H|]. split; [reflexivity|].
  exact (proj1 (stringsForGlyph_union sampleSources this 0x66) H).
Defined.

(** X12. The reverse lookup and the builder agree: when [stringsForGlyph]
    returns, every codepoint that the font's reverse map lists for the glyph,
    that the font's forward lookup sends to that glyph, and that is no
    variation selector, has its encoding in the result, and the builder turns
    that string into exactly one unit, naming the glyph. *)
Theorem stringsForGlyph_round_trip (src : GlyphSources) (this : LayoutEngine)
    (gid : Z) (result : list (list Z)) (cp : Z) :
  stringsForGlyph src this gid = Some result ->
  cp ∈ codePointsForGlyph src (font this) gid ->
  Font.cmap_lookup (font this) cp None = gid ->
  ~ inSelectorRanges cp ->
  exists s, fromCodePoint cp = Some s
    /\ s ∈ result
    /\ glyphsForString (font this) s
       = [ {| GlyphInfo.id := gid; GlyphInfo.codePoints := [cp];
              GlyphInfo.stringIndex := Z.of_nat (length s) - 1 |} ].
Proof.
  unfold stringsForGlyph. intros Hrun Hcp Hgid Hsel.
  pose proof (stringsForGlyph_codePoints_spec
                (codePointsForGlyph src (font this) gid) [] (NoDup_nil_2)) as Hspec.
  destruct (stringsForGlyph_codePoints (codePointsForGlyph src (font this) gid) [])
    as [r0|]; [|done].
  destruct Hspec as (Hall & Hnd & Hmem).
  rewrite Forall_forall in Hall.
  destruct (fromCodePoint_decode (font this) cp (Hall cp Hcp)) as (s & Hs & _ & Hunit).
  exists s. split; [done|]. split.
  - assert (s ∈ r0) as Hin by (apply Hmem; right; by exists cp).
    destruct (engine this) as [e|];
      [destruct (engine_stringsForGlyph src e) as [f|] |];
      injection Hrun as <-; try done.
    apply (stringsForGlyph_strings_spec (f gid) r0 Hnd). by left.
  - rewrite (Hunit Hsel), Hgid. reflexivity.
Qed.

Lemma stringsForGlyph_round_trip_witness :
  let this := Sample.this false None in
  stringsForGlyph sampleSources this 0x66 = Some [[0x66]; [0xD83D; 0xDE00]]
  /\ 0x66 ∈ codePointsForGlyph sampleSources (font this) 0x66
  /\ Font.cmap_lookup (font this) 0x66 None = 0x66
  /\ ~ inSelectorRanges 0x66
  /\ exists s, fromCodePoint 0x66 = Some s
       /\ s ∈ [[0x66]; [0xD83D; 0xDE00]]
       /\ glyphsForString (font this) s
          = [ {| GlyphInfo.id := 0x66; GlyphInfo.codePoints := [0x66];
                 GlyphInfo.stringIndex := Z.of_nat (length s) - 1 |} ].
Proof.
  intros this.
  assert (0x66 ∈ codePointsForGlyph sampleSources (font this) 0x66) as Hin
    by (cbn; by left).
  assert (~ inSelectorRanges 0x66) as Hsel by (unfold inSelectorRanges; lia).
  split; [reflexivity|]. split; [exact Hin|]. split; [reflexivity|].
  split; [exact Hsel|].
  exact (stringsForGlyph_round_trip sampleSources this 0x66 _ 0x66
           eq_refl Hin eq_refl Hsel).
Defined.

(** ** The layout call, phase by phase *)

Lemma backendMoved_refl (this : LayoutEngine) : backendMoved this this.
Proof. split; [apply sameEngine_refl | done]. Qed.

Lemma backendMoved_trans (this1 this2 this3 : LayoutEngine) :
  backendMoved this1 this2 -> backendMoved this2 this3 -> backendMoved this1 this3.
Proof.
  intros (H1 & H2 & H3) (H1' & H2' & H3').
  split; [by eapply sameEngine_trans | split; congruence].
Qed.

Lemma backendMoved_step (this : LayoutEngine) (e : Backend.t) (b : Backend.B e) :
  engine this = Some e ->
  backendMoved this (set_engine (Some (Backend.with_state e b)) this).
Proof. intros He. split; [by apply sameEngine_step | done]. Qed.

Lemma backendPhases_moved (this this' : LayoutEngine) :
  sameEngine this this' ->
  backendPhases this' = backendPhases this /\ cleanupPhase this' = cleanupPhase this.
Proof.
  intros [_ He]. unfold backendPhases, cleanupPhase.
  destruct (engine this) as [e|], (engine this') as [e'|]; try done.
  by destruct He as [b ->].
Qed.

Lemma setup_trace (glyphRun : Run) (this : LayoutEngine) :
  exists glyphRun' this',
    setup glyphRun this
    = (Normal glyphRun', this',
       match engine this with
       | Some e => phaseCall (Backend.setup e) CallSetup
       | None => []
       end)
    /\ backendMoved this this'.
Proof.
  unfold setup, mbind, M_bind, getThis. cbn.
  destruct (engine this) as [e|] eqn:He; [destruct (Backend.setup e) as [f|] |].
  - destruct (f (Backend.state e) glyphRun) as [b r]. cbn.
    eexists _, _. split; [done | by apply backendMoved_step].
  - eexists _, _. split; [done | apply backendMoved_refl].
  - eexists _, _. split; [done | apply backendMoved_refl].
Qed.

Lemma substitute_trace (glyphRun : Run) (this : LayoutEngine) :
  exists glyphRun' this',
    substitute glyphRun this
    = (Normal glyphRun', this',
       match engine this with
       | Some e => phaseCall (Backend.substitute e) CallSubstitute
       | None => []
       end)
    /\ backendMoved this this'.
Proof.
  unfold substitute, mbind, M_bind, getThis. cbn.
  destruct (engine this) as [e|] eqn:He; [destruct (Backend.substitute e) as [f|] |].
  - destruct (f (Backend.state e) glyphRun) as [b r]. cbn.
    eexists _, _. split; [done | by apply backendMoved_step].
  - eexists _, _. split; [done | apply backendMoved_refl].
  - eexists _, _. split; [done | apply backendMoved_refl].
Qed.

Lemma position_backend_trace (glyphRun : Run) (this : LayoutEngine) :
  exists glyphRun' positioned this',
    position_backend glyphRun this
    = (Normal (glyphRun', positioned), this',
       match engine this with
       | Some e => phaseCall (Backend.position e) CallPosition
       | None => []
       end)
    /\ backendMoved this this'
    /\ (engine this = None ->
        positioned = None
        /\ glyphRun'
           = GlyphRun.set_positions
               (Some (map (fun glyph =>
                             GlyphPosition.new (GlyphInfo_advanceWidth (font this) glyph))
                          (GlyphRun.glyphs glyphRun)))
               glyphRun).
Proof.
  unfold position_backend, mbind, M_bind, getThis. cbn.
  destruct (engine this) as [e|] eqn:He; [destruct (Backend.position e) as [f|] |].
  - destruct (f (Backend.state e) _) as [[b r] p]. cbn.
    eexists _, _, _. split; [done|]. split; [by apply backendMoved_step | done].
  - eexists _, _, _. split; [done|]. split; [apply backendMoved_refl | done].
  - eexists _, _, _. split; [done|]. split; [apply backendMoved_refl | done].
Qed.

Lemma cleanup_trace (this : LayoutEngine) :
  exists this', cleanup this = (Normal tt, this', cleanupPhase this)
                /\ backendMoved this this'.
Proof.
  unfold cleanup, cleanupPhase, mbind, M_bind, getThis. cbn.
  destruct (engine this) as [e|] eqn:He; [destruct (Backend.cleanup e) as [f|] |].
  - eexists. split; [done | by apply backendMoved_step].
  - eexists. split; [done | apply backendMoved_refl].
  - eexists. split; [done | apply backendMoved_refl].
Qed.

(** The call up to the gates, with its exact trace. *)
Lemma layout_positioned_trace (env : Env) (string : list Z) (features : FeaturesArg)
    (script language direction : option Tag) (this : LayoutEngine) :
  exists glyphRun positioned this1,
    layout_positioned env string features script language direction this
    = (Normal (glyphRun, positioned), this1, backendPhases this)
    /\ backendMoved this this1
    /\ (engine this = None ->
        this1 = this /\ positioned = None
        /\ glyphRun
           = GlyphRun.set_positions
               (Some (map (fun glyph =>
                             GlyphPosition.new (GlyphInfo_advanceWidth (font this) glyph))
                          (glyphsForString (font this) string)))
               (layout_run env (font this) string features script language direction)).
Proof.
  unfold layout_positioned.
  rewrite (bind_normal getThis _ this this this [] eq_refl). cbn beta.
  set (r0 := layout_run _ _ _ _ _ _ _).
  destruct (setup_trace r0 this) as (r1 & this1 & Hs & Hm1).
  destruct (substitute_trace r1 this1) as (r2 & this2 & Hsub & Hm2).
  destruct (position_backend_trace r2 this2) as (r3 & p3 & this3 & Hp & Hm3 & Hnone).
  rewrite (bind_normal _ _ _ _ _ _ Hs), (bind_normal _ _ _ _ _ _ Hsub), Hp.
  pose proof (backendMoved_trans _ _ _ Hm1 Hm2) as Hm12.
  eexists _, _, _. split; [|split; [by eapply backendMoved_trans|]].
  - f_equal. unfold backendPhases. cbn [app].
    destruct Hm1 as [[_ He1] _], Hm12 as [[_ He2] _].
    destruct (engine this) as [e|], (engine this1) as [e1|], (engine this2) as [e2|];
      try done.
    by destruct He1 as [b1 ->], He2 as [b2 ->].
  - intros He. revert Hs Hsub Hp Hnone.
    unfold setup, substitute, position_backend, mbind, M_bind, getThis. cbn.
    rewrite He. cbn. intros [= <- <-]. rewrite He. cbn. intros [= <- <-].
    rewrite He. cbn. intros [= <- <- <-] _.
    split; [done|]. split; [done|]. unfold r0. by rewrite layout_run_glyphs.
Qed.

(** The rest of the call, spelled out: the two gates, the arrays each
    positioner receives and returns, the hiding pass and the cleanup. *)
Lemma layout_finish_run (env : Env) (positioned : option (gmap Tag bool))
    (glyphRun : Run) (this : LayoutEngine) :
  let marks := negb (bool_decide (is_Some positioned)) && wantsFallback this in
  let kern :=
    negb (positioned_kern positioned)
    && negb (bool_decide (GlyphRun.features glyphRun !! "kern"%string = Some false))
    && Font.kern (font this) in
  let u := theUnicodeLayoutEngine this in
  let k := theKernProcessor this in
  let a1 := positionGlyphs env u (GlyphRun.glyphs glyphRun) (GlyphRun.positions glyphRun) in
  let r1 := if marks then GlyphRun.set_arrays a1.1 a1.2 glyphRun else glyphRun in
  let a2 := process env k (GlyphRun.glyphs r1) (GlyphRun.positions r1) in
  let r2 := if kern
            then GlyphRun.set_features
                   (<[ "kern"%string := true ]> (GlyphRun.features glyphRun))
                   (GlyphRun.set_arrays a2.1 a2.2 r1)
            else r1 in
  let c1 := if marks
            then [CallPositionGlyphs (GlyphRun.glyphs glyphRun)
                                     (GlyphRun.positions glyphRun)]
            else [] in
  let c2 := if kern then [CallProcess (GlyphRun.glyphs r1) (GlyphRun.positions r1)]
            else [] in
  let this1 := if marks then set_unicodeLayoutEngine (Some u) this else this in
  let this2 := if kern then set_kernProcessor (Some k) this1 else this1 in
  exists c this',
    layout_finish env positioned glyphRun this
    = (c, this',
       c1 ++ c2 ++ match c with Normal _ => cleanupPhase this | Throw _ => [] end)
    /\ sameEngine this2 this'
    /\ unicodeLayoutEngine this' = unicodeLayoutEngine this2
    /\ kernProcessor this' = kernProcessor this2
    /\ c = match hideDefaultIgnorables (font this) (GlyphRun.glyphs r2)
                                       (GlyphRun.positions r2) with
           | Normal (gs, ps) =>
               Normal (layout_result (font this) (GlyphRun.set_arrays gs ps r2))
           | Throw e => Throw e
           end.
Proof.
  intros marks kern u k a1 r1 a2 r2 c1 c2 this1 this2. unfold layout_finish.
  rewrite (bind_normal getThis _ this this this [] eq_refl). cbn beta.
  assert (position_marks env positioned glyphRun this = (Normal r1, this1, c1)) as Hm.
  { rewrite position_marks_run. fold marks. unfold r1, this1, c1.
    by destruct marks. }
  assert (GlyphRun.features r1 = GlyphRun.features glyphRun) as Hf1
    by (unfold r1; by destruct marks).
  assert (font this1 = font this) as Hfont1 by (unfold this1; by destruct marks).
  assert (kernProcessor this1 = kernProcessor this) as Hkp1
    by (unfold this1; by destruct marks).
  assert (engine this1 = engine this) as He1 by (unfold this1; by destruct marks).
  assert (position_kern env positioned r1 this1 = (Normal r2, this2, c2)) as Hk.
  { rewrite position_kern_run. rewrite Hf1, Hfont1, Hkp1. fold kern.
    unfold r2, this2, c2, a2, k, theKernProcessor. by destruct kern. }
  assert (engine this2 = engine this) as He2 by (unfold this2; by destruct kern).
  rewrite (bind_normal _ _ _ _ _ _ Hm), (bind_normal _ _ _ _ _ _ Hk).
  destruct (cleanup_trace this2) as (this3 & Hc & Hmoved).
  assert (cleanupPhase this2 = cleanupPhase this) as Hcp
    by (unfold cleanupPhase; by rewrite He2).
  rewrite Hcp in Hc.
  unfold mbind at 1, M_bind at 1, complete.
  destruct (hideDefaultIgnorables (font this) (GlyphRun.glyphs r2) (GlyphRun.positions r2))
    as [[gs ps]|e] eqn:Hhide.
  - rewrite (bind_normal _ _ _ _ _ _ Hc). cbn.
    eexists (Normal _), _. split; [by rewrite !app_nil_r|].
    destruct Hmoved as (? & ? & ?). done.
  - cbn. eexists (Throw _), _. split; [by rewrite !app_nil_r|].
    split; [apply sameEngine_refl | done].
Qed.

Lemma backendPhases_quiet (this : LayoutEngine) :
  markPositionerRan (backendPhases this) = false
  /\ kernProcessorRan (backendPhases this) = false
  /\ markPositionerRan (cleanupPhase this) = false
  /\ kernProcessorRan (cleanupPhase this) = false.
Proof.
  unfold backendPhases, cleanupPhase, markPositionerRan, kernProcessorRan.
  destruct (engine this) as [e|]; [|done].
  by destruct (Backend.setup e), (Backend.substitute e), (Backend.position e),
    (Backend.cleanup e).
Qed.

Lemma sameEngine_fields (this this' : LayoutEngine) :
  font this' = font this -> engine this' = engine this -> sameEngine this this'.
Proof.
  intros Hf He. split; [done|]. rewrite He.
  destruct (engine this) as [e|]; [|done]. exists (Backend.state e). by destruct e.
Qed.

Lemma theCollaborators_moved (this this' : LayoutEngine) :
  backendMoved this this' ->
  theUnicodeLayoutEngine this' = theUnicodeLayoutEngine this
  /\ theKernProcessor this' = theKernProcessor this.
Proof.
  intros ([Hf _] & Hu & Hk).
  unfold theUnicodeLayoutEngine, theKernProcessor. by rewrite Hu, Hk, Hf.
Qed.

(** The early return of lines 45-48, on the builder's result. *)
Lemma layout_no_units (env : Env) (string : list Z) (features : FeaturesArg)
    (script language direction : option Tag) (this : LayoutEngine) :
  glyphsForString (font this) string = [] ->
  exists r,
    layout env string features script language direction this = (Normal r, this, [])
    /\ GlyphRun.glyphs r = [] /\ GlyphRun.positions r = Some [].
Proof.
  intros Hsel.
  unfold layout. rewrite (bind_normal getThis _ this this this [] eq_refl). cbn beta.
  rewrite layout_run_glyphs, Hsel. cbn. eexists. split; [reflexivity|]. by split.
Qed.

(** X13. [layout] returns early exactly on the strings the builder makes no
    unit of: when every decoded codepoint is a variation selector (the empty
    string included) the call returns a run with empty glyph and position
    arrays, leaves the engine object as it was and calls no collaborator. *)
Theorem layout_selectors_only (env : Env) (string : list Z) (features : FeaturesArg)
    (script language direction : option Tag) (this : LayoutEngine) :
  Forall (fun c => inSelectorRanges (cp_code c)) (decode string) ->
  exists r,
    layout env string features script language direction this = (Normal r, this, [])
    /\ GlyphRun.glyphs r = [] /\ GlyphRun.positions r = Some [].
Proof.
  intros Hsel%(glyphsForString_nil (font this)). by apply layout_no_units.
Qed.

Lemma layout_selectors_only_witness :
  Forall (fun c => inSelectorRanges (cp_code c)) (decode [0xFE0F; 0xDB40; 0xDD00])
  /\ exists r,
       layout Sample.env [0xFE0F; 0xDB40; 0xDD00] FeatUndefined None None None
              (Sample.this true None)
       = (Normal r, Sample.this true None, [])
       /\ GlyphRun.glyphs r = [] /\ GlyphRun.positions r = Some [].
Proof.
  assert (Forall (fun c => inSelectorRanges (cp_code c))
                 (decode [0xFE0F; 0xDB40; 0xDD00])) as H.
  { change (decode [0xFE0F; 0xDB40; 0xDD00])
      with [mkCodePoint 0 0xFE0F 1; mkCodePoint 1 0xE0100 3].
    repeat constructor; unfold inSelectorRanges; cbn; lia. }
  split; [exact H | by apply layout_selectors_only].
Defined.

(** X14. The phases of a layout call run in a fixed order and at most once
    each: the backend's setup, substitute and position (those it has), then
    the Fallback Mark Positioner, then the Legacy Kern Processor, then the
    backend's cleanup; and cleanup is skipped when the hiding pass throws. *)
Theorem layout_phase_order (env : Env) (string : list Z) (features : FeaturesArg)
    (script language direction : option Tag) (this : LayoutEngine) :
  glyphsForString (font this) string <> [] ->
  exists c this' marks kern,
    layout env string features script language direction this
    = (c, this',
       backendPhases this ++ marks ++ kern
       ++ match c with Normal _ => cleanupPhase this | Throw _ => [] end)
    /\ atMostOne isCallPositionGlyphs marks
    /\ atMostOne isCallProcess kern.
Proof.
  intros Hne.
  destruct (layout_positioned_trace env string features script language direction this)
    as (glyphRun & positioned & this1 & Hpos & (Hsame & _) & _).
  rewrite (layout_split _ _ _ _ _ _ _ _ _ _ _ Hne Hpos).
  destruct (layout_finish_run env positioned glyphRun this1)
    as (c & this' & Hfin & _). cbv zeta in Hfin. rewrite Hfin.
  destruct (backendPhases_moved _ _ Hsame) as [_ ->].
  eexists c, this', _, _. split; [reflexivity|]. split.
  - destruct (_ && wantsFallback this1); [right | by left]. by eexists.
  - destruct (_ && Font.kern (font this1)); [right | by left]. by eexists.
Qed.

Lemma layout_phase_order_witness :
  let this := Sample.this true
                (Some (Sample.backend (Some Sample.double)
                                      (Some (Sample.report None)) true [])) in
  glyphsForString (font this) [0x61] <> []
  /\ (layout Sample.env [0x61] FeatUndefined None None None this).2
     = [ CallSubstitute; CallPosition;
         CallPositionGlyphs
           [GlyphInfo.mk 0x61 [0x61] 0; GlyphInfo.mk 0x61 [0x61] 0]
           (Some [GlyphPosition.mk 600 0 0 0; GlyphPosition.mk 600 0 0 0]);
         CallProcess
           [GlyphInfo.mk 0x61 [0x61] 0; GlyphInfo.mk 0x61 [0x61] 0]
           (Some [GlyphPosition.mk 600 0 0 0; GlyphPosition.mk 600 0 0 0]);
         CallCleanup ].
Proof.
  intros this. split; [discriminate|].
  destruct (layout_phase_order Sample.env [0x61] FeatUndefined None None None this
              ltac:(discriminate)) as (c & this' & marks & kern & Hrun & _).
  reflexivity.
Defined.

(** X15. A layout call never changes the font of the engine nor the backend
    it selected, and it handles the two cached collaborators lazily: the
    Fallback Mark Positioner (the Legacy Kern Processor) the engine holds
    after the call is the one it held before, or, if it held none and the
    collaborator ran, one built for the engine's font; if the collaborator
    did not run the cache is as it was. *)
Theorem layout_engine_invariant (env : Env) (string : list Z) (features : FeaturesArg)
    (script language direction : option Tag) (this : LayoutEngine) :
  exists c this' calls,
    layout env string features script language direction this = (c, this', calls)
    /\ sameEngine this this'
    /\ unicodeLayoutEngine this'
       = (if markPositionerRan calls then Some (theUnicodeLayoutEngine this)
          else unicodeLayoutEngine this)
    /\ kernProcessor this'
       = (if kernProcessorRan calls then Some (theKernProcessor this)
          else kernProcessor this).
Proof.
  destruct (decide (glyphsForString (font this) string = [])) as [Hnil|Hne].
  - destruct (layout_no_units env string features script language direction
                this Hnil) as (r & -> & _).
    eexists _, _, _. split; [done|]. split; [apply sameEngine_refl | done].
  - destruct (layout_positioned_trace env string features script language direction this)
      as (glyphRun & positioned & this1 & Hpos & Hmoved & _).
    rewrite (layout_split _ _ _ _ _ _ _ _ _ _ _ Hne Hpos).
    destruct (layout_finish_run env positioned glyphRun this1)
      as (c & this' & Hfin & Hsame & Hule & Hkp & _). cbv zeta in Hfin, Hsame, Hule, Hkp.
    rewrite Hfin. eexists _, _, _. split; [done|].
    destruct (theCollaborators_moved _ _ Hmoved) as (Hu1 & Hk1).
    destruct Hmoved as (Hsame1 & Hu & Hk).
    destruct (backendPhases_quiet this) as (Hq1 & Hq2 & _).
    destruct (backendPhases_quiet this1) as (_ & _ & Hq3 & Hq4).
    split.
    { eapply sameEngine_trans; [exact Hsame1|].
      eapply sameEngine_trans; [|exact Hsame].
      apply sameEngine_fields;
        by destruct (_ && wantsFallback this1), (_ && Font.kern (font this1)). }
    unfold markPositionerRan, kernProcessorRan in *.
    rewrite !existsb_app, Hq1, Hq2. cbn [orb].
    rewrite Hule, Hkp, Hu1, Hk1.
    destruct (_ && wantsFallback this1), (_ && Font.kern (font this1)), c; cbn;
      rewrite ?Hq3, ?Hq4, ?Hu, ?Hk; done.
Qed.

(** X16. For a font without morx, GSUB and GPOS table the constructor selects
    no backend, and on the engine it builds every layout call that yields a
    unit makes exactly these calls: the Fallback Mark Positioner, on the
    builder's units and on initial positions that carry each glyph's advance
    width and zero y advance and offsets; then, when the font has a kern
    table and the caller did not set the kerning toggle to false, the Legacy
    Kern Processor, on the arrays the mark positioner returned. Both are
    built for this font. *)
Theorem layout_without_tables (env : Env) (fnt : Font.t) (string : list Z)
    (features : FeaturesArg) (script language direction : option Tag) :
  Font.morx fnt = false -> Font.GSUB fnt = false -> Font.GPOS fnt = false ->
  glyphsForString fnt string <> [] ->
  let glyphs := glyphsForString fnt string in
  let positions :=
    Some (map (fun g => {| GlyphPosition.xAdvance :=
                             Glyph.advanceWidth (Font.getGlyph fnt (GlyphInfo.id g));
                           GlyphPosition.yAdvance := 0;
                           GlyphPosition.xOffset := 0;
                           GlyphPosition.yOffset := 0 |}) glyphs) in
  let marked := positionGlyphs env {| ule_font := fnt |} glyphs positions in
  let kernOff :=
    bool_decide (GlyphRun.features (layout_run env fnt string features
                                               script language direction)
                 !! "kern"%string = Some false) in
  (layout env string features script language direction (LayoutEngine_new env fnt)).2
  = CallPositionGlyphs glyphs positions
    :: (if negb kernOff && Font.kern fnt then [CallProcess marked.1 marked.2] else []).
Proof.
  intros Hmorx Hgsub Hgpos Hne glyphs positions marked kernOff.
  set (this := LayoutEngine_new env fnt).
  assert (engine this = None) as He
    by (unfold this, LayoutEngine_new; cbn; by rewrite Hmorx, Hgsub, Hgpos).
  destruct (layout_positioned_trace env string features script language direction this)
    as (glyphRun & positioned & this1 & Hpos & _ & Hnone).
  destruct (Hnone He) as (-> & -> & ->).
  rewrite (layout_split env string features script language direction this _ _ _ _ Hne Hpos).
  change (font this) with fnt. fold glyphs.
  set (r0 := GlyphRun.set_positions _ _).
  destruct (layout_finish_run env None r0 this) as (c & this' & Hfin & _).
  cbv zeta in Hfin. rewrite Hfin. clear Hfin.
  assert (wantsFallback this = true) as -> by (unfold wantsFallback; by rewrite He).
  assert (bool_decide (is_Some (@None (gmap Tag bool))) = false) as ->
    by (apply bool_decide_eq_false_2; by intros [? ?]).
  unfold backendPhases, cleanupPhase. rewrite He.
  change (font this) with fnt. change (theUnicodeLayoutEngine this) with {| ule_font := fnt |}.
  cbn [negb andb positioned_kern snd app].
  assert (GlyphRun.glyphs r0 = glyphs) as -> by apply layout_run_glyphs.
  change (GlyphRun.positions r0) with positions.
  change (GlyphRun.features r0)
    with (GlyphRun.features (layout_run env fnt string features script language direction)).
  fold marked. fold kernOff.
  destruct (negb kernOff && Font.kern fnt); destruct c; cbn; by rewrite ?app_nil_r.
Qed.

Lemma layout_without_tables_witness :
  let fnt := Sample.font true in
  Font.morx fnt = false /\ Font.GSUB fnt = false /\ Font.GPOS fnt = false
  /\ glyphsForString fnt [0x61; 0x301] <> []
  /\ (layout Sample.env [0x61; 0x301] FeatUndefined None None None
             (LayoutEngine_new Sample.env fnt)).2
     = [ CallPositionGlyphs
           [GlyphInfo.mk 0x61 [0x61] 0; GlyphInfo.mk 0x301 [0x301] 1]
           (Some [GlyphPosition.mk 600 0 0 0; GlyphPosition.mk 600 0 0 0]);
         CallProcess
           [GlyphInfo.mk 0x61 [0x61] 0; GlyphInfo.mk 0x301 [0x301] 1]
           (Some [GlyphPosition.mk 600 0 0 0; GlyphPosition.mk 600 0 0 0]) ].
Proof.
  intros fnt. repeat (split; [done|]).
  rewrite (layout_without_tables Sample.env fnt [0x61; 0x301] FeatUndefined
             None None None eq_refl eq_refl eq_refl ltac:(discriminate)).
  reflexivity.
Defined.

(** X17. The two fallbacks chain: in a layout call that yields a unit, the
    Fallback Mark Positioner receives the glyph and position arrays as the
    backend phases left them, and the Legacy Kern Processor receives the
    arrays the mark positioner returned when that one ran, and the arrays as
    the backend phases left them when it did not. *)
Theorem layout_fallbacks_chain (env : Env) (string : list Z) (features : FeaturesArg)
    (script language direction : option Tag) (this : LayoutEngine) :
  glyphsForString (font this) string <> [] ->
  exists glyphRun positioned this1 calls1 c this2 calls,
    layout_positioned env string features script language direction this
    = (Normal (glyphRun, positioned), this1, calls1)
    /\ layout env string features script language direction this = (c, this2, calls)
    /\ let glyphs := GlyphRun.glyphs glyphRun in
       let positions := GlyphRun.positions glyphRun in
       let marked := positionGlyphs env (theUnicodeLayoutEngine this) glyphs positions in
       (markPositionerRan calls = true -> kernProcessorRan calls = true ->
        exists rest, calls = calls1 ++ [CallPositionGlyphs glyphs positions;
                                        CallProcess marked.1 marked.2] ++ rest)
       /\ (markPositionerRan calls = true -> kernProcessorRan calls = false ->
           exists rest, calls = calls1 ++ [CallPositionGlyphs glyphs positions] ++ rest)
       /\ (markPositionerRan calls = false -> kernProcessorRan calls = true ->
           exists rest, calls = calls1 ++ [CallProcess glyphs positions] ++ rest).
Proof.
  intros Hne.
  destruct (layout_positioned_trace env string features script language direction this)
    as (glyphRun & positioned & this1 & Hpos & Hmoved & _).
  destruct (theCollaborators_moved _ _ Hmoved) as (Hu1 & _).
  destruct (layout_finish_run env positioned glyphRun this1)
    as (c & this' & Hfin & _). cbv zeta in Hfin. rewrite Hu1 in Hfin.
  exists glyphRun, positioned, this1, (backendPhases this), c, this'.
  eexists. split; [done|]. split.
  { rewrite (layout_split _ _ _ _ _ _ _ _ _ _ _ Hne Hpos). by rewrite Hfin. }
  cbv zeta.
  destruct (backendPhases_quiet this) as (Hq1 & Hq2 & _).
  destruct (backendPhases_quiet this1) as (_ & _ & Hq3 & Hq4).
  unfold markPositionerRan, kernProcessorRan in *.
  rewrite !existsb_app, Hq1, Hq2. cbn [orb].
  destruct (_ && wantsFallback this1), (_ && Font.kern (font this1)), c;
    cbn [app existsb isCallPositionGlyphs isCallProcess orb fst snd GlyphRun.glyphs
         GlyphRun.positions GlyphRun.set_arrays];
    rewrite ?Hq3, ?Hq4; repeat split; intros; try done; by eexists.
Qed.

Lemma layout_fallbacks_chain_witness :
  glyphsForString (font (Sample.this true None)) [0x61] <> []
  /\ (layout Sample.env [0x61] FeatUndefined None None None (Sample.this true None)).2
     = [ CallPositionGlyphs [GlyphInfo.mk 0x61 [0x61] 0]
                            (Some [GlyphPosition.mk 600 0 0 0]);
         CallProcess [GlyphInfo.mk 0x61 [0x61] 0] (Some [GlyphPosition.mk 600 0 0 0]) ].
Proof.
  split; [discriminate|].
  destruct (layout_fallbacks_chain Sample.env [0x61] FeatUndefined None None None
              (Sample.this true None) ltac:(discriminate))
    as (glyphRun & positioned & this1 & calls1 & c & this2 & calls & _ & Hrun & _).
  reflexivity.
Defined.

(** X18. Without a backend, and with positioners that adjust positions and
    leave the glyph array alone, a layout call that yields a unit returns, in
    the builder's order, the font's glyph object for every unit (the glyph of
    U+0020 where the unit's first codepoint is default-ignorable), the
    builder's offsets as source offsets, a position for every glyph, and the
    script, language and direction of the request. *)
Theorem layout_without_backend (env : Env) (string : list Z) (features : FeaturesArg)
    (script language direction : option Tag) (this : LayoutEngine) :
  engine this = None ->
  glyphsForString (font this) string <> [] ->
  (forall u, keepsGlyphs (positionGlyphs env u) /\ keepsLengths (positionGlyphs env u)) ->
  (forall k, keepsGlyphs (process env k) /\ keepsLengths (process env k)) ->
  let units := glyphsForString (font this) string in
  let requested := layout_run env (font this) string features script language direction in
  exists r this' calls ps,
    layout env string features script language direction this = (Normal r, this', calls)
    /\ GlyphRun.glyphs r
       = map (fun g => Font.getGlyph (font this)
                         (if firstCodePointIgnorable g
                          then Glyph.id (Font.glyphForCodePoint (font this) 0x20)
                          else GlyphInfo.id g)) units
    /\ GlyphRun.stringIndices r = Some (map GlyphInfo.stringIndex units)
    /\ GlyphRun.positions r = Some ps /\ length ps = length units
    /\ GlyphRun.script r = GlyphRun.script requested
    /\ GlyphRun.language r = GlyphRun.language requested
    /\ GlyphRun.direction r = GlyphRun.direction requested.
Proof.
  intros He Hne Hule Hkp units requested.
  destruct (layout_positioned_trace env string features script language direction this)
    as (glyphRun & positioned & this1 & Hpos & _ & Hnone).
  destruct (Hnone He) as (-> & -> & ->). fold units requested in Hpos.
  rewrite (layout_split _ _ _ _ _ _ _ _ _ _ _ Hne Hpos).
  set (r0 := GlyphRun.set_positions _ requested) in *.
  destruct (layout_finish_run env None r0 this) as (c & this' & Hfin & _ & _ & _ & Hc).
  cbv zeta in Hfin, Hc. rewrite Hfin. clear Hfin.
  assert (GlyphRun.glyphs r0 = units) as Hg0 by apply layout_run_glyphs.
  assert (aligned r0) as Hal0.
  { eexists. split; [reflexivity|]. by rewrite length_map, Hg0. }
  set (marks := negb (bool_decide (is_Some None)) && wantsFallback this) in *.
  set (a1 := positionGlyphs env (theUnicodeLayoutEngine this) _ _) in *.
  set (r1 := if marks then GlyphRun.set_arrays a1.1 a1.2 r0 else r0) in *.
  assert (GlyphRun.glyphs r1 = units /\ aligned r1
          /\ GlyphRun.script r1 = GlyphRun.script requested
          /\ GlyphRun.language r1 = GlyphRun.language requested
          /\ GlyphRun.direction r1 = GlyphRun.direction requested) as (Hg1 & Hal1 & Hs1).
  { unfold r1. destruct marks; [|done].
    destruct (Hule (theUnicodeLayoutEngine this)) as [Hkg Hkl].
    split; [cbn; unfold a1; by rewrite Hkg|].
    split; [by apply aligned_set_arrays | done]. }
  set (kern := _ && Font.kern (font this)) in *.
  set (a2 := process env (theKernProcessor this) _ _) in *.
  set (r2 := if kern then GlyphRun.set_features _ (GlyphRun.set_arrays a2.1 a2.2 r1)
             else r1) in *.
  assert (GlyphRun.glyphs r2 = units /\ aligned r2
          /\ GlyphRun.script r2 = GlyphRun.script requested
          /\ GlyphRun.language r2 = GlyphRun.language requested
          /\ GlyphRun.direction r2 = GlyphRun.direction requested)
    as (Hg2 & (ps2 & Hps2 & Hlen2) & Hs2 & Hl2 & Hd2).
  { unfold r2. destruct kern; [|done].
    destruct (Hkp (theKernProcessor this)) as [Hkg Hkl].
    split; [cbn; unfold a2; by rewrite Hkg|].
    split; [|by destruct Hs1 as (? & ? & ?)].
    destruct (aligned_set_arrays (process env (theKernProcessor this)) r1 Hkl Hal1)
      as (ps & ? & ?). by exists ps. }
  rewrite Hps2 in Hc.
  destruct (hideDefaultIgnorables_hidden (font this) (GlyphRun.glyphs r2) ps2 Hlen2)
    as (ps' & Hhide & Hlp' & _).
  rewrite Hhide in Hc. subst c. rewrite Hg2 in *.
  clearbody units requested.
  eexists _, this', _, ps'. split; [reflexivity|]. cbn.
  split; [|split; [|split; [done|split; [lia|done]]]].
  - rewrite <- list_fmap_compose. apply list_fmap_ext. intros i g _. cbn.
    unfold hiddenGlyph. by destruct (firstCodePointIgnorable g).
  - f_equal. rewrite <- list_fmap_compose. apply list_fmap_ext. intros i g _. cbn.
    unfold hiddenGlyph. by destruct (firstCodePointIgnorable g).
Qed.

Lemma layout_without_backend_witness :
  let this := Sample.this true None in
  engine this = None
  /\ glyphsForString (font this) [0x66; 0xAD; 0x69] <> []
  /\ exists r this' calls,
       layout Sample.env [0x66; 0xAD; 0x69] FeatUndefined None None None this
       = (Normal r, this', calls)
       /\ GlyphRun.glyphs r = [Glyph.mk 0x66 600; Glyph.mk 0x20 600; Glyph.mk 0x69 600]
       /\ GlyphRun.stringIndices r = Some [0; 1; 2].
Proof.
  intros this. split; [reflexivity|]. split; [discriminate|].
  destruct (layout_without_backend Sample.env [0x66; 0xAD; 0x69] FeatUndefined
              None None None this eq_refl ltac:(discriminate))
    as (r & this' & calls & ps & Hrun & Hg & Hix & _).
  - intros u. split; [done|]. intros gs ps Hlen. by exists gs, ps.
  - intros k. split; [done|]. intros gs ps Hlen. by exists gs, ps.
  - exists r, this', calls. split; [exact Hrun|]. split; [by rewrite Hg | by rewrite Hix].
Defined.



